(** * SETAR hyperparameter search: a shallow embedding of
      statsmodels/tsa/setar_model.py

    Observations, thresholds and matrix entries live in an arbitrary
    real domain [R] (exact arithmetic); concrete runs use [int].
    Python exceptions are modelled by the [result] error monad. *)

Set Warnings "-notation-overridden,-ambiguous-paths,-notation-incompatible-prefix".
From Stdlib Require Import ZArith QArith Qround Lia.
From mathcomp Require Import boot order algebra.
Import Order.Theory GRing.Theory Num.Theory.
Delimit Scope Z_scope with Z.
Delimit Scope Q_scope with Q.

Unset Printing Implicit Defensive.

(** ** Python exceptions and the error monad *)

Inductive py_error :=
| TypeError                 (* comparison or arithmetic with None *)
| DelayValueError           (* __init__, line 63 *)
| MaxDelayValueError        (* __init__, line 70 *)
| ThresholdCountValueError  (* __init__, line 74 *)
| AxisError                 (* np.sort on a 0-d array (np.sort(None)) *)
| BroadcastError            (* numpy shape mismatch *)
| ConcatenateError          (* np.concatenate of an empty list *)
| InvalidRegimeError (i : nat)  (* build_datasets, line 111 *)
| LinAlgError               (* np.linalg.inv of a singular matrix *)
| ZeroDivisionError
| IndexError.

Inductive result (A : Type) :=
| Ok (a : A)
| Err (e : py_error).
Arguments Ok {A} a.
Arguments Err {A} e.

Definition bind {A B : Type} (r : result A) (k : A -> result B) : result B :=
  match r with Ok a => k a | Err e => Err e end.

Notation "x <- c ;; k" := (bind c (fun x => k))
  (at level 61, c at next level, right associativity).

Definition is_err_with {A : Type} (p : py_error -> bool) (r : result A) : bool :=
  match r with Err e => p e | Ok _ => false end.

Definition is_invalid_regime (e : py_error) : bool :=
  if e is InvalidRegimeError _ then true else false.

Definition is_delay_error (e : py_error) : bool :=
  if e is DelayValueError then true else false.

(** ** Python slicing on lists *)

Section Slicing.
Variable A : Type.

(** Normalisation of a slice bound [i] against a length [n]
    (negative bounds count from the end; the result is clamped). *)
Definition slice_bound (n : nat) (i : Z) : nat :=
  let j := if Z.ltb i 0 then (i + Z.of_nat n)%Z else i in
  Z.to_nat (Z.max 0 (Z.min j (Z.of_nat n))).

(** [xs[start:stop]] *)
Definition py_slice (xs : seq A) (start stop : option Z) : seq A :=
  let n := size xs in
  let a := if start is Some i then slice_bound n i else 0%N in
  let b := if stop is Some i then slice_bound n i else n in
  take (b - a) (drop a xs).

(** [xs[i]] for an integer index, with negative indices and IndexError. *)
Definition py_index (x0 : A) (xs : seq A) (i : Z) : result A :=
  let n := Z.of_nat (size xs) in
  if Z.leb 0 i && Z.ltb i n then Ok (nth x0 xs (Z.to_nat i))
  else if (- n <=? i)%Z && Z.ltb i 0 then Ok (nth x0 xs (Z.to_nat (i + n)))
  else Err IndexError.

Fixpoint mapM {B : Type} (f : B -> result A) (l : seq B) : result (seq A) :=
  match l with
  | [::] => Ok [::]
  | b :: l' => a <- f b ;; r <- mapM f l' ;; Ok (a :: r)
  end.

End Slicing.

Arguments py_slice {A}.
Arguments py_index {A}.
Arguments mapM {A B}.

(** [np.arange(start, stop, step, dtype=int)] for [step >= 1]. *)
Definition arange (start stop step : Z) : seq Z :=
  [seq (start + Z.of_nat j * step)%Z
     | j <- iota 0 (Z.to_nat (stop - start)) & Z.ltb (start + Z.of_nat j * step) stop].

Open Scope ring_scope.

Section Model.
Variable R : realDomainType.

(** ** numpy helpers *)

(** [np.searchsorted(a, v)] (side='left'): the first index [i] with
    [v <= a[i]], i.e. [a[i-1] < v <= a[i]] on a sorted [a]. *)
Definition searchsorted (a : seq R) (v : R) : nat := find (fun t => v <= t) a.

(** [np.unique(np.sort(xs))] *)
Definition np_unique_sort (xs : seq R) : seq R := undup (sort <=%R xs).

(** ** The lagged design (external collaborators)

    Modelled from the spec: [lagmat] and [add_constant] of
    statsmodels.tsa.tsatools ("LaggedDesignBuilder"), not part of this file:
    row [t] is [1, x_(t-1), ..., x_(t-p)], with zeros before the sample
    start (lagmat's trim='forward' keeps one row per observation). *)
Definition lag_row (x : seq R) (p t : nat) : seq R :=
  1 :: [seq (if (j <= t)%N then nth 0 x (t - j)%N else 0) | j <- iota 1 p].

Definition add_constant_lagmat (x : seq R) (p : nat) : seq (seq R) :=
  [seq lag_row x p t | t <- iota 0 (size x)].

(** ** The model object *)

Record SETAR := mkSETAR {
  endog : seq R;
  exog : seq (seq R);
  nobs_initial : nat;
  nobs : Z;
  order : nat;
  ar_order : nat;
  min_regime_frac : Q;
  min_regime_num : Z;
  max_delay : nat;
  threshold_grid_size : Z;
  delay : option nat;
  thresholds : option (seq R);
  regimes : option nat
}.

(** [SETAR.__init__] (Python 3 semantics: comparing [None] with an
    integer raises TypeError).  Line 63 parses as
    [(delay is not None and delay < 1) or delay > ar_order]. *)
Definition init (endog0 : seq R) (order0 ar_order0 : nat)
    (delay0 : option nat) (thresholds0 : option (seq R))
    (min_regime_frac0 : Q) (max_delay0 : option nat)
    (threshold_grid_size0 : Z) : result SETAR :=
  _ <- (match delay0 with
        | Some d => if (d < 1)%N || (ar_order0 < d)%N then Err DelayValueError
                    else Ok tt
        | None => Err TypeError
        end) ;;
  _ <- (match delay0 with
        | None => match max_delay0 with
                  | None => Err TypeError
                  | Some md => if (ar_order0 < md)%N then Err MaxDelayValueError
                               else Ok tt
                  end
        | Some _ => Ok tt
        end) ;;
  _ <- (match thresholds0 with
        | Some ts => if size ts + 1 != order0 then Err ThresholdCountValueError
                     else Ok tt
        | None => Ok tt
        end) ;;
  let exog0 := add_constant_lagmat endog0 ar_order0 in
  let nobs0 := (Z.of_nat (size endog0) - Z.of_nat ar_order0)%Z in
  let mrn := Qceiling (min_regime_frac0 * inject_Z nobs0)%Q in
  let md := if max_delay0 is Some md then md else ar_order0 in
  (* self.thresholds = np.sort(thresholds) *)
  sorted_ts <- (match thresholds0 with
                | Some ts => Ok (sort <=%R ts)
                | None => Err AxisError
                end) ;;
  Ok (mkSETAR endog0 exog0 ar_order0 nobs0 order0 ar_order0 min_regime_frac0
        mrn md threshold_grid_size0 delay0 (Some sorted_ts) None).

(** ** [SETAR.build_datasets] *)

(** [np.multiply(exog_transpose, indicators == i).T]: each row scaled by
    the 0/1 indicator of regime [i]. *)
Definition mask_rows (X : seq (seq R)) (inds : seq nat) (i : nat)
    : seq (seq R) :=
  [seq [seq x * (ind == i)%:R | x <- row] | '(row, ind) <- zip X inds].

Definition regime_block (X : seq (seq R)) (inds : seq nat) (i : nat)
    : result (seq (seq R)) :=
  if size X != size inds then Err BroadcastError
  else Ok (mask_rows X inds i).

(** The [for i in range(order)] loop of lines 107-115. *)
Fixpoint regime_blocks (mrn : Z) (X : seq (seq R)) (inds : seq nat)
    (idx : seq nat) : result (seq (seq (seq R))) :=
  match idx with
  | [::] => Ok [::]
  | i :: idx' =>
      if Z.ltb (Z.of_nat (count_mem i inds)) mrn then Err (InvalidRegimeError i)
      else b <- regime_block X inds i ;;
           bs <- regime_blocks mrn X inds idx' ;;
           Ok (b :: bs)
  end.

(** [np.concatenate(blocks, 1)] *)
Definition hcat2 (A B : seq (seq R)) : seq (seq R) :=
  [seq r1 ++ r2 | '(r1, r2) <- zip A B].

Definition hcat (bs : seq (seq (seq R))) : result (seq (seq R)) :=
  match bs with
  | [::] => Err ConcatenateError
  | b :: bs' => Ok (foldl hcat2 b bs')
  end.

(** [threshold_var = self.endog[self.nobs_initial-delay:-delay]] *)
Definition threshold_var (m : SETAR) (d : nat) : seq R :=
  py_slice (endog m) (Some (Z.of_nat (nobs_initial m) - Z.of_nat d)%Z)
    (Some (- Z.of_nat d)%Z).

(** [indicators = np.searchsorted(thresholds, threshold_var)] *)
Definition indicators (m : SETAR) (d : nat) (ts : seq R) : seq nat :=
  [seq searchsorted ts v | v <- threshold_var m d].

Definition build_datasets (m : SETAR) (d : nat) (ts : seq R)
    (order0 : option nat) : result (seq R * seq (seq R)) :=
  let o := if order0 is Some o then o else order m in
  let y := py_slice (endog m) (Some (Z.of_nat (nobs_initial m))) None in
  let X := py_slice (exog m) (Some (Z.of_nat (nobs_initial m))) None in
  bs <- regime_blocks (min_regime_num m) X (indicators m d ts) (iota 0 o) ;;
  X' <- hcat bs ;;
  Ok (y, X').

(** ** [SETAR._grid_search_objective] and the cached baseline *)

(** A list of rows read as an [n] by [p] matrix. *)
Definition mx_of (rows : seq (seq R)) (n p : nat) : 'M[R]_(n, p) :=
  \matrix_(i < n, j < p) nth 0 (nth [::] rows i) j.

(** [self.exog[self.nobs_initial:]] and [self.endog[self.nobs_initial:]] *)
Definition design_rows (m : SETAR) : seq (seq R) :=
  py_slice (exog m) (Some (Z.of_nat (nobs_initial m))) None.

Definition response (m : SETAR) : seq R :=
  py_slice (endog m) (Some (Z.of_nat (nobs_initial m))) None.

Definition nrows (m : SETAR) : nat := size (design_rows m).

(** [k = self.ar_order + 1] *)
Definition kcols (m : SETAR) : nat := (ar_order m).+1.

Definition design (m : SETAR) : 'M[R]_(nrows m, kcols m) :=
  mx_of (design_rows m) (nrows m) (kcols m).

(** Lines 150-165: [X1 = exog[:, :-k]] keeps the first [len(thresholds)]
    regime blocks; [np.linalg.inv] fails on a singular matrix. *)
Definition grid_search_objective (m : SETAR) (d : nat) (ts : seq R)
    (XX : 'M[R]_(kcols m)) (resids : 'cV[R]_(nrows m)) : result R :=
  yX <- build_datasets m d ts (Some (size ts).+1) ;;
  let X1 := mx_of yX.2 (nrows m) (size ts * kcols m) in
  let X := design m in
  let X1X1 := X1^T *m X1 in
  let XX1 := X^T *m X1 in
  let A := X1X1 - XX1^T *m XX *m XX1 in
  if A \in unitmx then
    Ok ((resids^T *m X1 *m invmx A *m X1^T *m resids) 0 0)
  else Err LinAlgError.

(** Lines 210-216 of [select_hyperparameters]: [XX = (X'X)^-1] and the
    single-regime residuals. *)
Definition baseline (m : SETAR)
    : result ('M[R]_(kcols m) * 'cV[R]_(nrows m)) :=
  let X := design m in
  let y : 'cV[R]_(nrows m) := \col_i nth 0 (response m) i in
  let G := X^T *m X in
  if G \in unitmx then
    let XX := invmx G in Ok (XX, y - X *m (XX *m (X^T *m y)))
  else Err LinAlgError.

(** ** [SETAR._select_hyperparameters_grid] *)

Fixpoint foldM {A B : Type} (f : A -> B -> result A) (a : A) (l : seq B)
    : result A :=
  match l with
  | [::] => Ok a
  | b :: l' => a' <- f a b ;; foldM f a' l'
  end.

(** [np.sort] of a list of thresholds, some of which may be [None]
    (a failed grid search returns [(None, None)]); Python 3 refuses to
    order [None] against a float. *)
Definition np_sort_opt (l : seq (option R)) : result (seq R) :=
  if all (fun o => o != None) l then Ok (sort <=%R (pmap id l))
  else Err TypeError.

(** Lines 179-185: the threshold grid for one delay. *)
Definition threshold_grid (m : SETAR) (d : nat) (gs : Z) : result (seq R) :=
  let tv := np_unique_sort (py_slice (endog m) None (Some (- Z.of_nat d)%Z)) in
  let n := Z.of_nat (size tv) in
  if Z.eqb gs 0 then Err ZeroDivisionError
  else
    let step := Z.max (n / gs)%Z 1 in
    mapM (py_index 0 tv)
      (arange (min_regime_num m) (n - min_regime_num m)%Z step).

(** The body of the [try] block, lines 190-193. *)
Definition candidate_objective (m : SETAR) (ts : seq (option R))
    (XX : 'M[R]_(kcols m)) (resids : 'cV[R]_(nrows m)) (d : nat) (t : R)
    : result R :=
  cand <- np_sort_opt (Some t :: ts) ;;
  grid_search_objective m d cand XX resids.

(** One iteration of the inner loop, lines 188-200: only
    InvalidRegimeError is caught. *)
Definition grid_step (m : SETAR) (ts : seq (option R))
    (XX : 'M[R]_(kcols m)) (resids : 'cV[R]_(nrows m)) (d : nat)
    (acc : option (nat * R) * R) (t : R) : result (option (nat * R) * R) :=
  match candidate_objective m ts XX resids d t with
  | Ok obj => if acc.2 < obj then Ok (Some (d, t), obj) else Ok acc
  | Err (InvalidRegimeError _) => Ok acc
  | Err e => Err e
  end.

(** [delay_grid = range(2, self.max_delay+1)] unless overridden. *)
Definition default_delay_grid (m : SETAR) : seq (option nat) :=
  [seq Some d | d <- iota 2 ((max_delay m).+1 - 2)].

Definition select_hyperparameters_grid (m : SETAR) (ts : seq (option R))
    (gs : Z) (XX : 'M[R]_(kcols m)) (resids : 'cV[R]_(nrows m))
    (delay_grid : option (seq (option nat)))
    : result (option (nat * R) * R) :=
  let dg := if delay_grid is Some g then g else default_delay_grid m in
  foldM (fun acc od =>
           match od with
           | None => Err TypeError          (* self.endog[:-None] *)
           | Some d =>
               tg <- threshold_grid m d gs ;;
               foldM (grid_step m ts XX resids d) acc tg
           end)
        (None, 0) dg.

(** ** The coordinate refinement of [select_hyperparameters] (lines 239-265) *)

Definition maxiter : nat := 100.

(** Threshold [j] re-estimated with the others held fixed (lines 249-253):
    [params[1]] of the grid search over [delay_grid=[delay]] with
    [thresholds[:j] + thresholds[j+1:]]. *)
Definition regrid (m : SETAR) (gs : Z) (XX : 'M[R]_(kcols m))
    (resids : 'cV[R]_(nrows m)) (dly : option nat) (ts : seq (option R))
    (j : nat) : result (option R) :=
  res <- select_hyperparameters_grid m (take j ts ++ drop j.+1 ts) gs XX
           resids (Some [:: dly]) ;;
  Ok (omap snd res.1).

(** One sweep (lines 248-254): [proposed[j] = ...] for [j in range(i)];
    assigning past the end of a Python list raises IndexError. *)
Definition sweep (reest : nat -> result (option R)) (i : nat)
    (proposed : seq (option R)) : result (seq (option R)) :=
  foldM (fun p j => v <- reest j ;;
                    if (j < size p)%N then Ok (set_nth None p j v)
                    else Err IndexError) proposed (iota 0 i).

(** How the [while True] loop is left. *)
Inductive exit_reason := Converged | MaxIterExceeded.

(** The [while True] loop (lines 243-265). [sweep1 thresholds proposed] is
    one sweep from the current vector [thresholds], writing into the list
    [proposed]; the loop returns the [thresholds] in effect at the [break],
    the reason it stopped and the final value of [iteration]. [fuel] bounds
    the number of sweeps the model may run; [None] is fuel exhausted. *)
Fixpoint refine_loop (fuel : nat)
    (sweep1 : seq (option R) -> seq (option R) -> result (seq (option R)))
    (thresholds proposed : seq (option R)) (iteration : nat)
    : option (result (seq (option R) * exit_reason * nat)) :=
  match fuel with
  | O => None
  | S fuel' =>
      let iteration := iteration.+1 in
      match sweep1 thresholds proposed with
      | Err e => Some (Err e)
      | Ok proposed =>
          if proposed == thresholds then
            Some (Ok (thresholds, Converged, iteration))
          else if (maxiter < iteration)%N then
            (* print('Warning: ...'); break *)
            Some (Ok (thresholds, MaxIterExceeded, iteration))
          else refine_loop fuel' sweep1 proposed proposed iteration
      end
  end.

(** The sweep of the loop for [i] thresholds (line 248). *)
Definition refine_sweep (m : SETAR) (gs : Z) (XX : 'M[R]_(kcols m))
    (resids : 'cV[R]_(nrows m)) (dly : option nat) (i : nat)
    (thresholds proposed : seq (option R)) : result (seq (option R)) :=
  sweep (regrid m gs XX resids dly thresholds) i proposed.

(** ** Specification side of the seed phase (C9)

    The candidates (delay, threshold) in the order the spec gives: delays
    in the given order, and for each delay its threshold grid in order. *)
Definition spec_grid_candidates (m : SETAR) (gs : Z) (dg : seq nat)
    : result (seq (nat * R)) :=
  foldM (fun acc d => tg <- threshold_grid m d gs ;;
                      Ok (acc ++ [seq (d, t) | t <- tg])) [::] dg.

(** The spec's seed delays: every [d] in [2, max_delay], ascending. *)
Definition spec_seed_delays (m : SETAR) : seq nat :=
  filter (fun d => (2 <= d)%N) (iota 0 (max_delay m).+1).

(** A candidate evaluation that the search may skip. *)
Definition ok_or_invalid (r : result R) : bool :=
  match r with Ok _ => true | Err e => is_invalid_regime e end.

(** The spec's winner: [params] is the first candidate (in loop order)
    reaching the largest objective [max_obj], which beats the initial 0;
    [(None, None)] only when no candidate scores above 0. *)
Definition spec_first_max (score : nat * R -> result R) (cands : seq (nat * R))
    (params : option (nat * R)) (max_obj : R) : Prop :=
  (forall c v, List.In c cands -> score c = Ok v -> v <= max_obj) /\
  match params with
  | Some c => 0 < max_obj /\
      exists pre post, cands = pre ++ c :: post /\ score c = Ok max_obj /\
        (forall c' v, List.In c' pre -> score c' = Ok v -> v < max_obj)
  | None => max_obj = 0
  end.

(** ** Row-level evaluation of a matrix-vector product

    [rows_annihilate rows n p vs] computes, entry by entry, whether the
    [n] by [p] matrix read from [rows] maps the column [vs] to zero. *)
Definition row_dot (row vs : seq R) (p : nat) : R :=
  foldr +%R 0 [seq nth 0 row j * nth 0 vs j | j <- iota 0 p].

Definition rows_annihilate (rows : seq (seq R)) (n p : nat) (vs : seq R)
    : bool :=
  all (fun i => row_dot (nth [::] rows i) vs p == 0) (iota 0 n).

Definition col_of (vs : seq R) (p : nat) : 'cV[R]_p :=
  \col_(j < p) nth 0 vs j.

(** ** The rest of [SETAR.select_hyperparameters] (lines 204-267) *)

(** [np.sort(thresholds)] on the returned list (line 267): a list of at
    most one element is returned as it is (no comparison is made, so a
    [None] survives); a longer list holding a [None] raises TypeError. *)
Definition np_sort_list (l : seq (option R)) : result (seq (option R)) :=
  if (size l <= 1)%N then Ok l
  else s <- np_sort_opt l ;; Ok (map Some s).

(** One pass of [for i in range(2, self.order)] (lines 222-265): the grid
    search over [delay_grid=[delay]] for an initial threshold, appended
    to [thresholds], then the [while] loop on [proposed = thresholds[:]].
    The loop gets [maxiter + 1] sweeps of fuel, the most it can run
    (refine_loop_terminates). *)
Definition refine_threshold (m : SETAR) (gs : Z) (XX : 'M[R]_(kcols m))
    (resids : 'cV[R]_(nrows m)) (dly : option nat) (i : nat)
    (ts : seq (option R)) : option (result (seq (option R))) :=
  match select_hyperparameters_grid m ts gs XX resids (Some [:: dly]) with
  | Err e => Some (Err e)
  | Ok res =>
      let ts1 := rcons ts (omap snd res.1) in
      match refine_loop maxiter.+1 (refine_sweep m gs XX resids dly i)
              ts1 ts1 0 with
      | None => None
      | Some (Err e) => Some (Err e)
      | Some (Ok (ts2, _, _)) => Some (Ok ts2)
      end
  end.

Fixpoint refine_thresholds (m : SETAR) (gs : Z) (XX : 'M[R]_(kcols m))
    (resids : 'cV[R]_(nrows m)) (dly : option nat) (idxs : seq nat)
    (ts : seq (option R)) : option (result (seq (option R))) :=
  match idxs with
  | [::] => Some (Ok ts)
  | i :: idxs' =>
      match refine_threshold m gs XX resids dly i ts with
      | Some (Ok ts') => refine_thresholds m gs XX resids dly idxs' ts'
      | o => o
      end
  end.

(** Lines 218-267, from the cached [XX] and [resids] on: the seed grid
    search ([thresholds = []], default delay grid), [delay = params[0]],
    [thresholds.append(params[1])], the refinement for
    [i in range(2, self.order)] and [np.sort(thresholds)]. The warning
    printed at the iteration cap has no other effect and is not modelled. *)
Definition select_from_baseline (m : SETAR) (XX : 'M[R]_(kcols m))
    (resids : 'cV[R]_(nrows m))
    : option (result (option nat * seq (option R))) :=
  let gs := threshold_grid_size m in
  match select_hyperparameters_grid m [::] gs XX resids None with
  | Err e => Some (Err e)
  | Ok res =>
      let dly := omap fst res.1 in
      match refine_thresholds m gs XX resids dly (iota 2 (order m - 2))
              [:: omap snd res.1] with
      | None => None
      | Some (Err e) => Some (Err e)
      | Some (Ok ts) => Some (s <- np_sort_list ts ;; Ok (dly, s))
      end
  end.

(** [SETAR.select_hyperparameters]: the cached baseline, then the search. *)
Definition select_hyperparameters (m : SETAR)
    : option (result (option nat * seq (option R))) :=
  match baseline m with
  | Err e => Some (Err e)
  | Ok (XX, resids) => select_from_baseline m XX resids
  end.

(** The test of [SETAR.fit] (line 136): the hyperparameters are searched
    when the model holds no delay or no thresholds. *)
Definition fit_runs_search (m : SETAR) : bool :=
  (delay m == None) || (thresholds m == None).

(** ** List-level matrix arithmetic

    [mx_of] of these lists is the matrix product, transpose and difference
    of [mx_of] matrices (lemmas [mx_of_mul], [mx_of_tr], [mx_of_sub]);
    they evaluate concrete matrices entry by entry. *)
Definition lcol (b : seq (seq R)) (k j : nat) : seq R :=
  [seq nth 0 (nth [::] b l) j | l <- iota 0 k].

Definition lmul (a b : seq (seq R)) (n k p : nat) : seq (seq R) :=
  [seq [seq row_dot (nth [::] a i) (lcol b k j) k | j <- iota 0 p]
     | i <- iota 0 n].

Definition ltr (a : seq (seq R)) (n p : nat) : seq (seq R) :=
  [seq lcol a n j | j <- iota 0 p].

Definition lsub (a b : seq (seq R)) (n p : nat) : seq (seq R) :=
  [seq [seq nth 0 (nth [::] a i) j - nth 0 (nth [::] b i) j | j <- iota 0 p]
     | i <- iota 0 n].

Definition lid (n : nat) : seq (seq R) :=
  [seq [seq (i == j)%:R | j <- iota 0 n] | i <- iota 0 n].

Definition lcolumn (vs : seq R) : seq (seq R) := [seq [:: x] | x <- vs].

End Model.

Arguments searchsorted {R}.
Arguments np_unique_sort {R}.
Arguments lag_row {R}.
Arguments add_constant_lagmat {R}.
Arguments init {R}.
Arguments mask_rows {R}.
Arguments regime_block {R}.
Arguments regime_blocks {R}.
Arguments hcat2 {R}.
Arguments hcat {R}.
Arguments threshold_var {R}.
Arguments indicators {R}.
Arguments build_datasets {R}.
Arguments mx_of {R}.
Arguments design_rows {R}.
Arguments response {R}.
Arguments nrows {R}.
Arguments kcols {R}.
Arguments design {R}.
Arguments grid_search_objective {R}.
Arguments baseline {R}.
Arguments np_sort_opt {R}.
Arguments threshold_grid {R}.
Arguments candidate_objective {R}.
Arguments grid_step {R}.
Arguments default_delay_grid {R}.
Arguments select_hyperparameters_grid {R}.
Arguments spec_grid_candidates {R}.
Arguments regrid {R}.
Arguments sweep {R}.
Arguments refine_loop {R}.
Arguments refine_sweep {R}.
Arguments spec_seed_delays {R}.
Arguments ok_or_invalid {R}.
Arguments spec_first_max {R}.
Arguments row_dot {R}.
Arguments rows_annihilate {R}.
Arguments col_of {R}.
Arguments np_sort_list {R}.
Arguments fit_runs_search {R}.
Arguments refine_threshold {R}.
Arguments refine_thresholds {R}.
Arguments select_from_baseline {R}.
Arguments select_hyperparameters {R}.
Arguments lcol {R}.
Arguments lmul {R}.
Arguments ltr {R}.
Arguments lsub {R}.
Arguments lid {R}.
Arguments lcolumn {R}.
Arguments mkSETAR {R}.
Arguments endog {R}.
Arguments exog {R}.
Arguments nobs_initial {R}.
Arguments nobs {R}.
Arguments order {R}.
Arguments ar_order {R}.
Arguments min_regime_frac {R}.
Arguments min_regime_num {R}.
Arguments max_delay {R}.
Arguments threshold_grid_size {R}.
Arguments delay {R}.
Arguments thresholds {R}.
Arguments regimes {R}.


(** * A concrete series

    Values in [rat]. With [ar_order = 1] and [delay = 1] the threshold
    variable is the first lag [0; 1; 2; 2; 3; 5; 4]. *)
Definition ex_endog : seq rat := [:: 0; 1; 2; 2; 3; 5; 4; 7].

(** [SETAR(ex_endog, order=3, ar_order=1, delay=1, thresholds=[1, 2],
    min_regime_frac=1/10)]: [nobs = 7], [min_regime_num = ceil(0.7) = 1]. *)
Definition ex_model : SETAR rat :=
  mkSETAR ex_endog (add_constant_lagmat ex_endog 1) 1 7 3 1 (1 # 10) 1 1 100
    (Some 1%N) (Some [:: 1; 2]) None.

(** The same series with [ar_order = 2] (so [max_delay = 2]). *)
Definition ex_model2 : SETAR rat :=
  mkSETAR ex_endog (add_constant_lagmat ex_endog 2) 2 6 3 2 (1 # 10) 1 2 100
    (Some 1%N) (Some [:: 5; 7]) None.

(** The cached [XX = (X'X)^-1] and single-regime residuals of
    [select_hyperparameters] (lines 210-216) for [ex_model]. *)
Definition ex_XX : 'M[rat]_(kcols ex_model) :=
  invmx ((design ex_model)^T *m design ex_model).

Definition ex_resids : 'cV[rat]_(nrows ex_model) :=
  let X := design ex_model in
  let y : 'cV[rat]_(nrows ex_model) := \col_i nth 0 (response ex_model) i in
  y - X *m (ex_XX *m (X^T *m y)).

(** A sweep over two thresholds that re-estimates threshold [x] as [1 - x]:
    started at [0, 0] the vector alternates between [0, 0] and [1, 1]. *)
Definition ex_flip_sweep (thresholds proposed : seq (option rat))
    : result (seq (option rat)) :=
  sweep (fun j => Ok (omap (fun x => 1 - x) (nth None thresholds j))) 2
    proposed.

(** A shorter series for the single-regime baseline:
    [SETAR([0, 1, 2, 3, 5, 4], order=2, ar_order=1, delay=1,
    thresholds=[1], min_regime_frac=1/5, threshold_grid_size=1)], so
    [nobs = 5], [min_regime_num = 1] and [max_delay = 1]. *)
Definition ex3_endog : seq rat := [:: 0; 1; 2; 3; 5; 4].

Definition ex3_model : SETAR rat :=
  mkSETAR ex3_endog (add_constant_lagmat ex3_endog 1) 1 5 2 1 (1 # 5) 1 1 1
    (Some 1%N) (Some [:: 1]) None.

(** Rows of [(X'X)^-1] and the residuals for [ex3_model] (lines 212-216). *)
Definition ex3_XX : seq (seq rat) :=
  [:: [:: 39 / 74; -11 / 74]; [:: -11 / 74; 5 / 74]].

Definition ex3_resids : seq rat :=
  [:: -19 / 37; -7 / 37; 5 / 37; 54 / 37; -33 / 37].

(** Rows of [Mn] (line 160) for delay 1 and the single threshold 1. *)
Definition ex3_Mn : seq (seq rat) :=
  [:: [:: 26 / 7; -12 / 7]; [:: -12 / 7; 31 / 14]].

(** A sweep over two thresholds that re-estimates every threshold as 0. *)
Definition ex_const_sweep (thresholds proposed : seq (option rat))
    : result (seq (option rat)) :=
  sweep (fun _ => Ok (Some 0)) 2 proposed.

(** * Properties *)

Set Implicit Arguments.
Unset Strict Implicit.

Section Properties.
Variable R : realDomainType.

Lemma quad_self_ge0 (n : nat) (q : 'cV[R]_n) : 0 <= (q^T *m q) 0 0.
Proof.
rewrite mxE; apply: sumr_ge0 => i _; rewrite mxE -expr2; exact: sqr_ge0.
Qed.

(** The Schur-type matrix of the objective is a Gram matrix [B^T B]. *)
Lemma inner_gram (n k p : nat) (X : 'M[R]_(n, k)) (X1 : 'M[R]_(n, p)) :
  let G := X^T *m X in
  G \in unitmx ->
  let P := X *m invmx G *m X^T in
  X1^T *m X1 - (X^T *m X1)^T *m invmx G *m (X^T *m X1)
  = ((1%:M - P) *m X1)^T *m ((1%:M - P) *m X1).
Proof.
move=> G uG P.
have GT : G^T = G by rewrite /G trmx_mul trmxK.
have PT : P^T = P by rewrite /P !trmx_mul trmxK trmx_inv GT mulmxA.
have PP : P *m P = P.
  rewrite /P -!mulmxA [X^T *m (X *m _)]mulmxA.
  by rewrite [X^T *m X *m _]mulmxA -/G mulmxV // mul1mx.
have E : (1%:M - P)^T *m (1%:M - P) = 1%:M - P :> 'M_n.
  by rewrite (raddfB (@trmx _ n n)) /= tr_scalar_mx PT mulmxBl !mulmxBr !mul1mx mulmx1 PP subrr subr0.
rewrite [((1%:M - P) *m X1)^T]trmx_mul -[X1^T *m _ *m _]mulmxA (mulmxA (1%:M - P)^T) E.
rewrite mulmxBl mul1mx mulmxBr.
congr (_ - _).
by rewrite /P trmx_mul trmxK !mulmxA.
Qed.

(** A quadratic form in the inverse of an invertible Gram matrix. *)
Lemma quad_inv_gram_ge0 (n p : nat) (B : 'M[R]_(n, p)) (A : 'M[R]_p)
    (u : 'cV[R]_p) :
  A = B^T *m B -> A \in unitmx -> 0 <= (u^T *m invmx A *m u) 0 0.
Proof.
move=> EA uA.
have AT : A^T = A by rewrite EA trmx_mul trmxK.
rewrite -(mulKVmx uA u); set w := invmx A *m u.
rewrite trmx_mul AT -!mulmxA (mulmxA (invmx A)) (mulVmx uA) mul1mx.
rewrite EA.
have -> : w^T *m (B^T *m B *m w) = (B *m w)^T *m (B *m w).
  by rewrite trmx_mul !mulmxA.
exact: quad_self_ge0.
Qed.

Lemma quad_form_assoc (n p : nat) (r : 'cV[R]_n) (X1 : 'M[R]_(n, p))
    (M : 'M[R]_p) :
  r^T *m X1 *m M *m X1^T *m r = (X1^T *m r)^T *m M *m (X1^T *m r).
Proof. by rewrite trmx_mul trmxK !mulmxA. Qed.

(** ** C6 *)

(** C6: with [XX] and [resids] cached by [select_hyperparameters]
    ([XX = (X'X)^-1], the single-regime residuals), every candidate whose
    partition succeeds and whose inner matrix
    [X1'X1 - X1'X XX X'X1] is invertible has a non-negative objective
    [resids' X1 Mn X1' resids] (exact arithmetic). *)
Theorem grid_objective_nonneg (m : SETAR R) (d : nat) (ts : seq R) :
  match baseline m with
  | Ok (XX, resids) =>
      match grid_search_objective m d ts XX resids with
      | Ok obj => is_true (0 <= obj)
      | Err _ => True
      end
  | Err _ => True
  end.
Proof.
rewrite /baseline; case: ifP => // uG.
rewrite /grid_search_objective; case: (build_datasets _ _ _ _) => //= [[y X']].
set X1 := mx_of X' _ _; case: ifP => // uA.
rewrite quad_form_assoc.
exact: quad_inv_gram_ge0 (inner_gram X1 uG) uA.
Qed.

(** ** Regime classification *)

Lemma searchsorted_monotone (ts : seq R) (v : R) (i j : nat) :
  sorted <=%R ts -> (i <= j)%N -> (j < size ts)%N ->
  v <= nth 0 ts i -> v <= nth 0 ts j.
Proof.
move=> srt ij js vi; apply: le_trans vi _.
apply: (sorted_leq_nth le_trans lexx) => //; rewrite inE //.
exact: leq_ltn_trans ij js.
Qed.

Lemma searchsorted_le_size (ts : seq R) (v : R) :
  (searchsorted ts v <= size ts)%N.
Proof. exact: find_size. Qed.

(** C10: on a sorted threshold vector, [searchsorted] puts [v] in regime
    [k] exactly when [thresholds[k-1] < v <= thresholds[k]] (no lower bound
    for [k = 0], no upper bound for the last regime): the regimes are
    left-open, right-closed intervals, so a value equal to [thresholds[k]]
    belongs to regime [k]. *)
Theorem searchsorted_regime_interval (ts : seq R) (v : R) (k : nat) :
  sorted <=%R ts -> (k <= size ts)%N ->
  (searchsorted ts v == k) =
  ((k == 0%N) || (nth 0 ts k.-1 < v)) && ((k == size ts) || (v <= nth 0 ts k)).
Proof.
move=> srt kle; rewrite /searchsorted; set P := fun t => v <= t.
apply/eqP/andP.
- move=> fk; split.
  + case: k kle fk => [|k] //= kle fk.
    by rewrite ltNge -/(P _) (@before_find _ 0 P ts k) // fk.
  + case: eqP => //= /eqP kn.
    have : (find P ts < size ts)%N by rewrite fk ltn_neqAle kn kle.
    by rewrite -has_find => /(nth_find 0); rewrite fk.
- case=> H1 H2; apply/eqP; rewrite eqn_leq; apply/andP; split.
  + case/orP: H2 => [/eqP -> | H2]; first exact: find_size.
    rewrite leqNgt; apply/negP => /(@before_find _ 0 P ts).
    by rewrite /P H2.
  + case: k kle H1 {H2} => [|k] // kle /=; rewrite ltNge => /negP H1.
    rewrite ltnNge; apply/negP => fle; apply: H1.
    have fs : (find P ts < size ts)%N by exact: leq_ltn_trans fle kle.
    apply: (searchsorted_monotone srt fle) => //.
    by move: fs; rewrite -has_find => /(nth_find 0).
Qed.

(** ** The model built by [__init__] *)

Lemma init_fields (endog0 : seq R) order0 ar0 delay0 ts0 frac md0 gs m :
  init endog0 order0 ar0 delay0 ts0 frac md0 gs = Ok m ->
  [/\ endog m = endog0, exog m = add_constant_lagmat endog0 ar0,
      nobs_initial m = ar0, order m = order0
    & min_regime_num m =
        Qceiling (frac * inject_Z (Z.of_nat (size endog0) - Z.of_nat ar0))].
Proof.
rewrite /init; case: delay0 => [d0|] //=; case: ifP => //= _.
case: ts0 => [ts|] //=; first case: ifP => //= _.
by move=> [<-].
Qed.

Lemma init_ar_order (endog0 : seq R) order0 ar0 delay0 ts0 frac md0 gs m :
  init endog0 order0 ar0 delay0 ts0 frac md0 gs = Ok m -> ar_order m = ar0.
Proof.
rewrite /init; case: delay0 => [d0|] //=; case: ifP => //= _.
case: ts0 => [ts|] //=; first case: ifP => //= _.
by move=> [<-].
Qed.

Lemma size_lag_row (x : seq R) p t : size (lag_row x p t) = p.+1.
Proof. by rewrite /lag_row /= size_map size_iota. Qed.

Lemma size_py_slice (A : Type) (xs : seq A) a b :
  size (py_slice xs (Some a) (Some b)) =
  (slice_bound (size xs) b - slice_bound (size xs) a)%N.
Proof.
rewrite /py_slice size_take size_drop.
have hb : (slice_bound (size xs) b <= size xs)%N.
  apply/ssrnat.leP; rewrite /slice_bound; case: Z.ltb; lia.
case: ltnP => // H; apply/eqP; rewrite eqn_leq H /=.
by rewrite leq_sub2r.
Qed.

Lemma size_py_slice_from (A : Type) (xs : seq A) (a : nat) :
  size (py_slice xs (Some (Z.of_nat a)) None) = (size xs - a)%N.
Proof.
rewrite /py_slice size_take size_drop /slice_bound.
have -> : Z.ltb (Z.of_nat a) 0 = false by apply/Z.ltb_ge; lia.
have -> : Z.to_nat (Z.max 0 (Z.min (Z.of_nat a) (Z.of_nat (size xs))))
          = minn a (size xs).
  rewrite /minn; case: ltnP => /ssrnat.leP H; lia.
rewrite ltnn /minn -!minusE; case: ltnP => /ssrnat.leP H; lia.
Qed.

(** For [1 <= delay <= ar_order] the threshold variable is aligned with
    the design rows. *)
Lemma size_threshold_var (endog0 : seq R) order0 ar0 delay0 ts0 frac md0 gs m d :
  init endog0 order0 ar0 delay0 ts0 frac md0 gs = Ok m ->
  (1 <= d <= ar0)%N ->
  size (threshold_var m d) = size (design_rows m).
Proof.
move=> /init_fields [E1 E2 E3 _ _] /andP [/ssrnat.leP d1 /ssrnat.leP d2].
rewrite /threshold_var /design_rows E1 E2 E3 size_py_slice size_py_slice_from.
rewrite /add_constant_lagmat size_map size_iota /slice_bound -!minusE.
have -> : Z.ltb (Z.of_nat ar0 - Z.of_nat d) 0 = false by apply/Z.ltb_ge; lia.
have -> : Z.ltb (- Z.of_nat d) 0 = true by apply/Z.ltb_lt; lia.
lia.
Qed.

(** ** The regime partition *)

Lemma regime_blocks_invalid (mrn : Z) (X : seq (seq R)) inds idx :
  size X = size inds ->
  is_err_with is_invalid_regime (regime_blocks mrn X inds idx) =
  has (fun i => Z.ltb (Z.of_nat (count_mem i inds)) mrn) idx.
Proof.
move=> E; elim: idx => //= i idx IH; case: ifP => //= _.
rewrite /regime_block E eqxx /=.
by move: IH; case: (regime_blocks _ _ _ _).
Qed.

Lemma size_indicators (endog0 : seq R) order0 ar0 delay0 ts0 frac md0 gs m d ts :
  init endog0 order0 ar0 delay0 ts0 frac md0 gs = Ok m ->
  (1 <= d <= ar0)%N ->
  size (design_rows m) = size (indicators m d ts).
Proof.
by move=> Hm Hd; rewrite /indicators size_map (size_threshold_var Hm Hd).
Qed.


Lemma regime_blocks_ok (mrn : Z) (X : seq (seq R)) inds idx bs :
  regime_blocks mrn X inds idx = Ok bs ->
  bs = [seq mask_rows X inds i | i <- idx] /\
  (idx != [::] -> size X = size inds).
Proof.
elim: idx bs => [|i idx IH] bs /=; first by move=> [<-].
case: ifP => // _; rewrite /regime_block; case: eqP => //= E.
case E2 : (regime_blocks _ _ _ _) => [bs'|] //= [<-].
by have [-> _] := IH _ E2.
Qed.

Lemma nth_hcat2 (A B : seq (seq R)) t :
  size A = size B -> (t < size A)%N ->
  nth [::] (hcat2 A B) t = nth [::] A t ++ nth [::] B t.
Proof.
move=> E tA; have tz : (t < size (zip A B))%N by rewrite size_zip E minnn -E.
by rewrite /hcat2 (nth_map ([::], [::]) _ _ tz) nth_zip.
Qed.

Lemma foldl_hcat2 (n : nat) (b : seq (seq R)) bs :
  size b = n -> all (fun B => size B == n) bs ->
  size (foldl hcat2 b bs) = n /\
  forall t, (t < n)%N ->
    nth [::] (foldl hcat2 b bs) t =
    nth [::] b t ++ flatten [seq nth [::] B t | B <- bs].
Proof.
elim: bs b => [|c cs IH] b Eb /=; first by split => // t _; rewrite cats0.
case/andP => /eqP Ec Hcs.
have Ebc : size (hcat2 b c) = n by rewrite /hcat2 size_map size_zip Eb Ec minnn.
have [S N] := IH _ Ebc Hcs; split => // t tn.
by rewrite N // nth_hcat2 ?Eb ?Ec // catA.
Qed.

Lemma take_drop_flatten (k : nat) (f : nat -> seq R) (s o i : nat) :
  (forall j, size (f j) = k) -> (i < o)%N ->
  take k (drop (i * k) (flatten [seq f j | j <- iota s o])) = f (s + i)%N.
Proof.
move=> Hf; elim: o s i => [|o IH] s [|i] //= io.
- by rewrite drop0 take_size_cat ?Hf // addn0.
- rewrite mulSn [(k + _)%N]addnC -drop_drop drop_size_cat ?Hf // IH //.
  by rewrite addSnnS.
Qed.

Lemma size_flatten_iota (k : nat) (f : nat -> seq R) (s o : nat) :
  (forall j, size (f j) = k) ->
  size (flatten [seq f j | j <- iota s o]) = (o * k)%N.
Proof.
move=> Hf; elim: o s => [|o IH] s //=.
by rewrite size_cat Hf IH mulSn.
Qed.

Lemma design_rows_size (endog0 : seq R) order0 ar0 delay0 ts0 frac md0 gs m :
  init endog0 order0 ar0 delay0 ts0 frac md0 gs = Ok m ->
  all (fun r => size r == kcols m) (design_rows m).
Proof.
move=> Hm; have [_ E2 _ _ _] := init_fields Hm; apply/allP => r.
rewrite /design_rows /py_slice E2 => /mem_take /mem_drop /mapP [t _ ->].
by rewrite size_lag_row /kcols (init_ar_order Hm).
Qed.

Lemma map_mask_row (r : seq R) (b : bool) :
  [seq x * b%:R | x <- r] = if b then r else nseq (size r) 0.
Proof.
case: b => /=.
- by rewrite (eq_map (fun x => mulr1 x)) map_id.
- by elim: r => //= x r ->; rewrite mulr0.
Qed.

(** C5: whenever [build_datasets] succeeds with [len(thresholds) = order - 1],
    the partitioned design has one row per design row, and each row [t]
    splits into [order] blocks of [k = ar_order + 1] columns: the block of
    regime [indicators[t]] (which is below [order]) is the unmasked design
    row, every other block is zero.  So every row lies in exactly one
    regime block. *)
Theorem build_datasets_regimes_partition (endog0 : seq R) order0 ar0 delay0
    ts0 frac md0 gs m d (ts : seq R) o y X' :
  init endog0 order0 ar0 delay0 ts0 frac md0 gs = Ok m ->
  (size ts + 1)%N = o ->
  build_datasets m d ts (Some o) = Ok (y, X') ->
  size X' = nrows m /\
  forall t, (t < size X')%N ->
    let ind := nth 0%N (indicators m d ts) t in
    [/\ (ind < o)%N, size (nth [::] X' t) = (o * kcols m)%N &
     forall i, (i < o)%N ->
       take (kcols m) (drop (i * kcols m) (nth [::] X' t)) =
       (if i == ind then nth [::] (design_rows m) t else nseq (kcols m) 0)].
Proof.
move=> Hm Ho; rewrite /build_datasets -/(design_rows m).
case Eb : (regime_blocks _ _ _ _) => [bs|] //=.
have [Ebs Esz] := regime_blocks_ok Eb.
have Esz' : size (design_rows m) = size (indicators m d ts).
  by apply: Esz; rewrite -Ho addn1.
move: Ebs; rewrite -Ho addn1 /= => -> [_ <-].
set X := design_rows m; set inds := indicators m d ts.
have Hmask i : size (mask_rows X inds i) = size X.
  by rewrite /mask_rows size_map size_zip Esz' minnn.
have Hall : all (fun B => size B == size X)
              [seq mask_rows X inds i | i <- iota 1 (size ts)].
  by apply/allP => B /mapP [i _ ->]; rewrite Hmask.
have [S N] := foldl_hcat2 (Hmask 0%N) Hall.
split; first by rewrite S.
move=> t; rewrite S => tX /=; set ind := nth 0%N inds t.
have Hrow i : nth [::] (mask_rows X inds i) t = [seq x * (ind == i)%:R | x <- nth [::] X t].
  have tz : (t < size (zip X inds))%N by rewrite size_zip -Esz' minnn.
  by rewrite /mask_rows (nth_map ([::], 0%N) _ _ tz) nth_zip.
have Erow : nth [::] (foldl hcat2 (mask_rows X inds 0)
               [seq mask_rows X inds i | i <- iota 1 (size ts)]) t =
            flatten [seq [seq x * (ind == i)%:R | x <- nth [::] X t]
                      | i <- iota 0 (size ts).+1].
  rewrite N // -map_comp /= Hrow; congr (_ ++ flatten _).
  by apply: eq_map => i /=; rewrite Hrow.
have Hk : size (nth [::] X t) = kcols m.
  by move/allP: (design_rows_size Hm) => /(_ _ (mem_nth [::] tX)) /eqP.
have Hf i : size [seq x * (ind == i)%:R | x <- nth [::] X t] = kcols m.
  by rewrite size_map.
split.
- have ti : (t < size (threshold_var m d))%N by rewrite -(size_map (searchsorted ts)) -/inds -Esz'.
  by rewrite /ind /inds /indicators (nth_map 0 _ _ ti) ltnS searchsorted_le_size.
- by rewrite Erow (size_flatten_iota _ _ Hf).
- move=> i io; rewrite Erow take_drop_flatten // add0n map_mask_row eq_sym.
  by case: (i == ind) => //; rewrite Hk.
Qed.

(** ** The grid search as a fold over candidates *)

Lemma foldM_cat (A B : Type) (f : A -> B -> result A) a l1 l2 :
  foldM f a (l1 ++ l2) = (a' <- foldM f a l1 ;; foldM f a' l2).
Proof.
elim: l1 a => [|b l1 IH] a //=.
by case: (f a b) => //= a'.
Qed.

Lemma foldM_map (A B C : Type) (f : A -> B -> result A) (g : C -> B) a l :
  foldM f a (map g l) = foldM (fun a c => f a (g c)) a l.
Proof. by elim: l a => [|c l IH] a //=; case: (f a (g c)). Qed.

Section GridFold.
Variables (m : SETAR R) (ts : seq (option R)).
Variables (XX : 'M[R]_(kcols m)) (r : 'cV[R]_(nrows m)).

Local Notation cobj c := (candidate_objective m ts XX r c.1 c.2).
Local Notation flat_step := (fun acc (c : nat * R) => grid_step m ts XX r c.1 acc c.2).

Lemma grid_nested_flat (gs : Z) (dg : seq nat) acc res pre :
  foldM (fun acc od =>
           match od with
           | None => Err TypeError
           | Some d => tg <- threshold_grid m d gs ;;
                       foldM (grid_step m ts XX r d) acc tg
           end) acc [seq Some d | d <- dg] = Ok res ->
  exists cands,
    [/\ foldM (fun acc d => tg <- threshold_grid m d gs ;;
                          Ok (acc ++ [seq (d, t) | t <- tg])) pre dg
         = Ok (pre ++ cands),
       foldM flat_step acc cands = Ok res &
       forall c, List.In c cands -> c.1 \in dg].
Proof.
elim: dg acc pre => [|d dg IH] acc pre /=.
  by move=> [<-]; exists [::]; rewrite cats0.
case: (threshold_grid m d gs) => //= tg.
case E : (foldM (grid_step m ts XX r d) acc tg) => [acc'|] //=.
move/(IH _ (pre ++ [seq (d, t) | t <- tg])) => -[cands [H1 H2 H3]].
exists ([seq (d, t) | t <- tg] ++ cands); split; first by rewrite H1 catA.
- by rewrite foldM_cat foldM_map /= E.
- move=> c /List.in_app_iff [/List.in_map_iff [t [<- _]]|/H3 Hc].
    by rewrite inE eqxx.
  by rewrite inE Hc orbT.
Qed.

Lemma grid_flat_invariant (cs : seq (nat * R)) acc res :
  foldM flat_step acc cs = Ok res ->
  [/\ forall c, List.In c cs -> ok_or_invalid (cobj c),
      forall c v, List.In c cs -> cobj c = Ok v -> v <= res.2,
      acc.2 <= res.2 &
      res = acc \/
      (acc.2 < res.2 /\
       exists pre c post, [/\ res.1 = Some c, cs = pre ++ c :: post,
         cobj c = Ok res.2 &
         forall c' v, List.In c' pre -> cobj c' = Ok v -> v < res.2])].
Proof.
elim: cs acc => [|c cs IH] acc /=; first by move=> [<-]; split => //; left.
rewrite {1}/grid_step.
case Ec : (cobj c) => [v|e].
- case: ifP => lt /= /IH [Hv Hle Hacc Hres].
  + split.
    * by move=> c' [<-|/Hv]; rewrite ?Ec.
    * by move=> c' v' [<-|H]; [rewrite Ec => -[<-] | exact: Hle].
    * exact: le_trans (ltW lt) Hacc.
    * right; split; first exact: lt_le_trans lt Hacc.
      case: Hres => [-> | [lt' [pre [c0 [post [H1 H2 H3 H4]]]]]].
      - by exists [::], c, cs; split => //; case: (c).
      - exists (c :: pre), c0, post; split => //; first by rewrite H2.
        move=> c' v' [<-|/H4]; last exact.
        by rewrite Ec => -[<-]; exact: lt'.
  + have vle : v <= acc.2 by rewrite leNgt lt.
    split.
    * by move=> c' [<-|/Hv]; rewrite ?Ec.
    * move=> c' v' [<-|H]; last exact: Hle.
      by rewrite Ec => -[<-]; exact: le_trans vle Hacc.
    * exact: Hacc.
    * case: Hres => [-> | [lt' [pre [c0 [post [H1 H2 H3 H4]]]]]]; first by left.
      right; split => //; exists (c :: pre), c0, post; split => //; first by rewrite H2.
      move=> c' v' [<-|/H4]; last exact.
      by rewrite Ec => -[<-]; exact: le_lt_trans vle lt'.
- case: e Ec => // i Ec /= /IH [Hv Hle Hacc Hres].
  split => //.
  * by move=> c' [<-|/Hv]; rewrite ?Ec.
  * by move=> c' v' [<-|H]; [rewrite Ec | exact: Hle].
  * case: Hres => [-> | [lt' [pre [c0 [post [H1 H2 H3 H4]]]]]]; first by left.
    right; split => //; exists (c :: pre), c0, post; split => //; first by rewrite H2.
    by move=> c' v' [<-|/H4]; [rewrite Ec | exact].
Qed.

Lemma grid_search_flat (gs : Z) (dg : seq nat) res :
  select_hyperparameters_grid m ts gs XX r (Some [seq Some d | d <- dg])
    = Ok res ->
  exists cands,
    [/\ spec_grid_candidates m gs dg = Ok cands,
       foldM flat_step (None, 0) cands = Ok res &
       forall c, List.In c cands -> c.1 \in dg].
Proof. exact: (@grid_nested_flat gs dg (None, 0) res [::]). Qed.

End GridFold.

Lemma spec_seed_delays_iota (m : SETAR R) :
  spec_seed_delays m = iota 2 ((max_delay m).+1 - 2).
Proof.
rewrite /spec_seed_delays; case: (max_delay m) => [|md] //=.
rewrite !subSS subn0; apply/all_filterP/allP => x.
by rewrite mem_iota => /andP [].
Qed.



(** ** Singular candidates *)

Lemma mx_of_mul_col (rows : seq (seq R)) n p vs (i : 'I_n) :
  (mx_of rows n p *m col_of vs p) i 0 = row_dot (nth [::] rows i) vs p.
Proof.
rewrite !mxE /row_dot foldrE big_map.
have -> : iota 0 p = index_iota 0 p by rewrite /index_iota subn0.
by rewrite big_mkord; apply: eq_bigr => j _; rewrite !mxE.
Qed.

Lemma rows_annihilateP (rows : seq (seq R)) n p vs :
  rows_annihilate rows n p vs -> mx_of rows n p *m col_of vs p = 0.
Proof.
move/allP => H; apply/matrixP => i j; rewrite (ord1 j) mx_of_mul_col mxE.
by apply/eqP/H; rewrite mem_iota add0n ltn_ord.
Qed.

Lemma col_of_neq0 (vs : seq R) p :
  has (fun j => nth 0 vs j != 0) (iota 0 p) -> col_of vs p != 0.
Proof.
case/hasP => j; rewrite mem_iota add0n /= => Hj nz.
apply/negP => /eqP /matrixP /(_ (Ordinal Hj) 0); rewrite !mxE => E.
by rewrite E eqxx in nz.
Qed.

(** A null vector of [X1] is a null vector of the inner matrix. *)
Lemma schur_singular n p q (X1 : 'M[R]_(n, p)) (X : 'M[R]_(n, q))
    (XX : 'M[R]_q) (v : 'cV[R]_p) :
  v != 0 -> X1 *m v = 0 ->
  (X1^T *m X1 - (X^T *m X1)^T *m XX *m (X^T *m X1)) \notin unitmx.
Proof.
move=> nz Hv; apply/negP => U.
have E : (X1^T *m X1 - (X^T *m X1)^T *m XX *m (X^T *m X1)) *m v = 0.
  by rewrite mulmxBl -!mulmxA Hv !mulmx0 subr0.
move: (congr1 (mulmx (invmx (X1^T *m X1 - (X^T *m X1)^T *m XX *m (X^T *m X1)))) E).
rewrite mulmxA mulVmx // mul1mx mulmx0 => E'.
by rewrite E' eqxx in nz.
Qed.

Lemma objective_singular (vs : seq R) (m : SETAR R) d ts XX r :
  has (fun j => nth 0 vs j != 0) (iota 0 (size ts * kcols m)) ->
  (if build_datasets m d ts (Some (size ts).+1) is Ok (_, X')
   then rows_annihilate X' (nrows m) (size ts * kcols m) vs else false) ->
  grid_search_objective m d ts XX r = Err LinAlgError.
Proof.
move=> /col_of_neq0 nz; rewrite /grid_search_objective.
case: (build_datasets _ _ _ _) => [[y X']|] //= /rows_annihilateP Hv.
by rewrite (negbTE (schur_singular _ _ nz Hv)).
Qed.

Lemma objective_build_err (m : SETAR R) d ts XX r e :
  build_datasets m d ts (Some (size ts).+1) = Err e ->
  grid_search_objective m d ts XX r = Err e.
Proof. by rewrite /grid_search_objective => ->. Qed.

Lemma grid_single_delay (m : SETAR R) ts gs XX r d :
  select_hyperparameters_grid m ts gs XX r (Some [:: Some d]) =
  (tg <- threshold_grid m d gs ;; foldM (grid_step m ts XX r d) (None, 0) tg).
Proof.
rewrite /select_hyperparameters_grid /=.
case: (threshold_grid m d gs) => //= tg.
by case: (foldM (grid_step m ts XX r d) (None, 0) tg).
Qed.

(** ** Construction *)

(** C2 (what the code does): [SETAR(..., thresholds=None)] never
    constructs. [np.sort(None)] raises AxisError (line 93), unless the delay
    check raised first (TypeError for [delay=None] under Python 3). So a
    model with unsupplied thresholds never reaches [fit]. *)
Theorem init_without_thresholds_fails (endog0 : seq R) order0 ar0 delay0
    frac md0 gs :
  init endog0 order0 ar0 delay0 None frac md0 gs =
  Err (if delay0 is Some d then
         if (d < 1)%N || (ar0 < d)%N then DelayValueError else AxisError
       else TypeError).
Proof. by rewrite /init; case: delay0 => [d|] //=; case: ifP. Qed.

(** C8: with a supplied delay, construction fails with the delay
    ValueError exactly when [delay < 1] or [delay > ar_order]; a delay in
    [1, ar_order] passes this check. *)
Theorem init_delay_validation (endog0 : seq R) order0 ar0 d ts0 frac md0 gs :
  is_err_with is_delay_error (init endog0 order0 ar0 (Some d) ts0 frac md0 gs)
  = (d < 1)%N || (ar0 < d)%N.
Proof.
rewrite /init /=; case: ifP => //= _.
by case: ts0 => [ts|] //=; case: ifP.
Qed.

(** ** The refinement loop *)

Section Loop.
Variable sweep1 : seq (option R) -> seq (option R) -> result (seq (option R)).

Lemma refine_loop_exit fuel ts p it ts' reason n :
  (it <= maxiter)%N ->
  refine_loop fuel sweep1 ts p it = Some (Ok (ts', reason, n)) ->
  exists p0 p', sweep1 ts' p0 = Ok p' /\
    match reason with
    | Converged => p' = ts' /\ (n <= maxiter.+1)%N
    | MaxIterExceeded => p' != ts' /\ n = maxiter.+1
    end.
Proof.
elim: fuel ts p it => [|f IH] ts p it Hit //=.
case E : (sweep1 ts p) => [p'|e] //.
case: ifP => [/eqP eq | neq].
  by move=> [<- <- <-]; exists p, p'; rewrite E eq ltnS.
case: ifP => [lt | nlt].
  move=> [<- <- <-]; exists p, p'; rewrite E neq; split => //; split => //.
  by apply/eqP; rewrite eqSS eqn_leq Hit -ltnS lt.
by apply: IH; rewrite leqNgt nlt.
Qed.

Lemma refine_loop_fuel fuel1 fuel2 ts p it :
  (maxiter.+1 - it <= fuel1)%N -> (maxiter.+1 - it <= fuel2)%N ->
  (it <= maxiter)%N ->
  refine_loop fuel1 sweep1 ts p it = refine_loop fuel2 sweep1 ts p it /\
  refine_loop fuel1 sweep1 ts p it <> None.
Proof.
elim: fuel1 fuel2 ts p it => [|f1 IH] [|f2] ts p it H1 H2 Hit.
- by move: H1; rewrite leqn0 subn_eq0 ltnNge Hit.
- by move: H1; rewrite leqn0 subn_eq0 ltnNge Hit.
- by move: H2; rewrite leqn0 subn_eq0 ltnNge Hit.
rewrite /=; case: (sweep1 ts p) => [p'|e] //.
case: ifP => // _; case: ifP => // nlt.
have Hit' : (it.+1 <= maxiter)%N by rewrite leqNgt nlt.
by apply: IH; rewrite ?subSS -ltnS -?subSn.
Qed.


(** C7 (as the code behaves): the loop always stops within [maxiter + 1]
    sweeps: any fuel of at least [maxiter + 1] gives the same outcome,
    never fuel exhaustion. *)
Theorem refine_loop_terminates fuel ts p :
  (maxiter.+1 <= fuel)%N ->
  refine_loop fuel sweep1 ts p 0 = refine_loop maxiter.+1 sweep1 ts p 0 /\
  refine_loop fuel sweep1 ts p 0 <> None.
Proof. by move=> H; apply: refine_loop_fuel; rewrite ?subn0. Qed.

End Loop.


(** ** List-level matrix arithmetic

    [mx_of] of the list products agrees with the matrix operations, so
    concrete products and inverses are checked on lists. *)

Lemma nth_lcol (b : seq (seq R)) k j l :
  (l < k)%N -> nth 0 (lcol b k j) l = nth 0 (nth [::] b l) j.
Proof. by move=> lk; rewrite /lcol (nth_map 0%N) ?size_iota // nth_iota. Qed.

Lemma nth_mx_list (f : nat -> nat -> R) n p (i j : nat) :
  (i < n)%N -> (j < p)%N ->
  nth 0 (nth [::] [seq [seq f i j | j <- iota 0 p] | i <- iota 0 n] i) j = f i j.
Proof.
by move=> ilt jlt; rewrite (nth_map 0%N) ?size_iota // nth_iota // (nth_map 0%N) ?size_iota // nth_iota.
Qed.

Lemma mx_of_mul (a b : seq (seq R)) n k p :
  mx_of a n k *m mx_of b k p = mx_of (lmul a b n k p) n p.
Proof.
apply/matrixP => i j; rewrite !mxE /lmul nth_mx_list // /row_dot foldrE big_map.
have -> : iota 0 k = index_iota 0 k by rewrite /index_iota subn0.
by rewrite big_mkord; apply: eq_bigr => l _; rewrite !mxE nth_lcol.
Qed.

Lemma mx_of_tr (a : seq (seq R)) n p : (mx_of a n p)^T = mx_of (ltr a n p) p n.
Proof.
apply/matrixP => i j; rewrite !mxE /ltr (nth_map 0%N) ?size_iota // nth_iota //.
by rewrite nth_lcol.
Qed.

Lemma mx_of_sub (a b : seq (seq R)) n p :
  mx_of a n p - mx_of b n p = mx_of (lsub a b n p) n p.
Proof. by apply/matrixP => i j; rewrite !mxE /lsub nth_mx_list. Qed.

Lemma mx_of_id n : 1%:M = mx_of (lid n) n n :> 'M[R]_n.
Proof. by apply/matrixP => i j; rewrite !mxE /lid nth_mx_list. Qed.

Lemma mx_of_column (vs : seq R) n :
  \col_(i < n) nth 0 vs i = mx_of (lcolumn vs) n 1.
Proof.
apply/matrixP => i j; rewrite !mxE (ord1 j) /lcolumn.
case: (ltnP i (size vs)) => H; first by rewrite (nth_map 0).
by rewrite !nth_default ?size_map.
Qed.

Lemma mx_of_inv (a b : seq (seq R)) n :
  lmul a b n n n = lid n ->
  mx_of a n n \in unitmx /\ invmx (mx_of a n n) = mx_of b n n.
Proof.
move=> E; have AB : mx_of a n n *m mx_of b n n = 1%:M by rewrite mx_of_mul E -mx_of_id.
have [Ua _] := mulmx1_unit AB; split => //.
by rewrite -[RHS](mulKmx Ua) AB mulmx1.
Qed.

(** ** Further properties of the code *)

(** X1: a successful [__init__] (lines 63-94) was given a delay [d] with
    [1 <= d <= ar_order] and a threshold list; it stores that delay, the
    sorted permutation of the thresholds with one fewer entry than
    [order], [nobs = len(endog) - ar_order] and [max_delay] defaulting to
    [ar_order]; so [fit] never runs the search (line 136). *)
Theorem init_model_invariants (endog0 : seq R) order0 ar0 delay0 ts0 frac md0 gs m :
  init endog0 order0 ar0 delay0 ts0 frac md0 gs = Ok m ->
  exists d ts ts',
    [/\ delay0 = Some d, ts0 = Some ts', delay m = Some d,
        thresholds m = Some ts & (1 <= d <= ar_order m)%N] /\
    [/\ sorted <=%R ts, perm_eq ts ts', (size ts).+1 = order m,
        nobs m = (Z.of_nat (size endog0) - Z.of_nat ar0)%Z
      & max_delay m = (if md0 is Some md then md else ar0)] /\
    ~~ fit_runs_search m.
Proof.
rewrite /init; case: delay0 => [d|] //=; case: ifP => //= /negbT.
rewrite negb_or -leqNgt -ltnNge => /andP [d1 d2].
case: ts0 => [ts|] //=; case: ifP => //= /negbFE /eqP Hs [<-] /=.
exists d, (sort <=%R ts), ts; split; first by split => //; rewrite d1 -ltnS d2.
split; last by rewrite /fit_runs_search.
split => //.
- exact: sort_le_sorted.
- by rewrite perm_sort.
- by rewrite size_sort -addn1.
Qed.

(** X2: with an in-range delay, [__init__] succeeds exactly when
    [len(thresholds) + 1 == order], and otherwise raises the threshold
    count ValueError; [max_delay] is then not checked against
    [ar_order]. *)
Theorem init_valid_delay_outcome (endog0 : seq R) order0 ar0 d ts0 frac md0 gs :
  (1 <= d <= ar0)%N ->
  match init endog0 order0 ar0 (Some d) (Some ts0) frac md0 gs with
  | Ok m => (size ts0).+1 = order0 /\
            max_delay m = (if md0 is Some md then md else ar0)
  | Err e => (size ts0).+1 <> order0 /\ e = ThresholdCountValueError
  end.
Proof.
move=> /andP [d1 d2]; rewrite /init /=.
have -> : (d < 1)%N || (ar0 < d)%N = false by rewrite ltnNge d1 ltnNge d2.
rewrite /=; case: eqP => [Hs|Hs] /=.
- by rewrite -Hs -addn1.
- by split=> // E; apply: Hs; rewrite -E -addn1.
Qed.


Lemma py_slice_empty (A : Type) (xs : seq A) a b :
  (slice_bound (size xs) b <= slice_bound (size xs) a)%N ->
  py_slice xs (Some a) (Some b) = [::].
Proof.
move=> H; rewrite /py_slice /=.
have -> : (slice_bound (size xs) b - slice_bound (size xs) a)%N = 0%N.
  by apply/eqP; rewrite subn_eq0.
by rewrite take0.
Qed.

Lemma threshold_var_empty (m : SETAR R) (d : nat) :
  (d == 0)%N || (nobs_initial m < d)%N -> threshold_var m d = [::].
Proof.
move=> H; rewrite /threshold_var; apply: py_slice_empty; apply/ssrnat.leP; rewrite /slice_bound.
case/orP: H => [/eqP E | /ssrnat.ltP H].
  rewrite E /=; lia.
case: Z.ltb_spec; case: Z.ltb_spec; lia.
Qed.

Lemma build_datasets_no_lagged_rows (m : SETAR R) d ts o :
  (d == 0)%N || (nobs_initial m < d)%N -> (0 < min_regime_num m)%Z ->
  (0 < o)%N ->
  build_datasets m d ts (Some o) = Err (InvalidRegimeError 0).
Proof.
move=> Hd Hm; case: o => [|o] // _.
rewrite /build_datasets /indicators threshold_var_empty //=.
by move/Z.ltb_lt: Hm => ->.
Qed.

(** X3: [build_datasets] with delay 0 or a delay above [nobs_initial]
    slices an empty threshold variable (line 102), so with a positive
    [min_regime_num] regime 0 already fails with InvalidRegimeError. *)
Theorem build_datasets_delay_out_of_range (m : SETAR R) d ts o :
  (d == 0)%N || (nobs_initial m < d)%N -> (0 < min_regime_num m)%Z ->
  (0 < o)%N ->
  build_datasets m d ts (Some o) = Err (InvalidRegimeError 0).
Proof. exact: build_datasets_no_lagged_rows. Qed.


(** X4: asking [build_datasets] for more regimes than
    [len(thresholds) + 1] always fails with InvalidRegimeError when
    [min_regime_num] is positive: [searchsorted] never returns an index
    above [len(thresholds)], so the extra regimes are empty. *)
Theorem build_datasets_extra_regime_invalid (endog0 : seq R) order0 ar0 delay0
    ts0 frac md0 gs m d ts o :
  init endog0 order0 ar0 delay0 ts0 frac md0 gs = Ok m ->
  (1 <= d <= ar0)%N -> (0 < min_regime_num m)%Z -> ((size ts).+1 < o)%N ->
  is_err_with is_invalid_regime (build_datasets m d ts (Some o)).
Proof.
move=> Hm Hd Hmrn Ho.
have E := regime_blocks_invalid (min_regime_num m) (iota 0 o)
  (size_indicators ts Hm Hd).
have H : has (fun i => Z.ltb (Z.of_nat (count_mem i (indicators m d ts)))
                 (min_regime_num m)) (iota 0 o).
  apply/hasP; exists (size ts).+1; first by rewrite mem_iota.
  have -> : count_mem (size ts).+1 (indicators m d ts) = 0%N.
    apply/count_memPn/mapP => -[v _ Ev].
    by have := searchsorted_le_size ts v; rewrite -Ev ltnn.
  exact/Z.ltb_lt.
rewrite /build_datasets -/(design_rows m); move: E; rewrite H.
by case: (regime_blocks _ _ _ _).
Qed.

(** X5: row [t] of the indicators (lines 102-103) is the regime that
    [searchsorted] gives to the observation [delay] steps before row
    [t]'s response, [endog[ar_order + t - delay]]. *)
Theorem indicators_lagged_value (endog0 : seq R) order0 ar0 delay0 ts0 frac
    md0 gs m d ts t :
  init endog0 order0 ar0 delay0 ts0 frac md0 gs = Ok m ->
  (1 <= d <= ar0)%N -> (t < nrows m)%N ->
  nth 0%N (indicators m d ts) t = searchsorted ts (nth 0 endog0 (ar0 + t - d)).
Proof.
move=> Hm Hd Ht; have Hs := size_threshold_var Hm Hd.
rewrite /indicators (nth_map 0) ?Hs //; congr searchsorted.
have [E1 _ E3 _ _] := init_fields Hm.
move: Ht; rewrite /nrows -Hs /threshold_var E1 E3 size_py_slice.
move: Hd => /andP [/ssrnat.leP d1 /ssrnat.leP d2].
rewrite /py_slice /= => Ht; rewrite nth_take // nth_drop; congr nth.
move: Ht; rewrite /slice_bound -!minusE -!plusE => /ssrnat.ltP.
case: Z.ltb_spec; case: Z.ltb_spec; lia.
Qed.


Lemma mapM_py_index (A : Type) (x0 : A) (xs : seq A) (idx : seq Z) :
  all (fun i => Z.leb 0 i && Z.ltb i (Z.of_nat (size xs))) idx ->
  mapM (py_index x0 xs) idx = Ok [seq nth x0 xs (Z.to_nat i) | i <- idx].
Proof.
elim: idx => [|i idx IH] //= /andP [Hi /IH ->].
by rewrite /py_index Hi.
Qed.

Lemma arange_spec (start stop step : Z) :
  (1 <= step)%Z ->
  sorted (fun a b => Z.ltb a b) (arange start stop step) /\
  all (fun i => Z.leb start i && Z.ltb i stop) (arange start stop step).
Proof.
move=> Hs; rewrite /arange; split.
- apply: homo_sorted; last exact/sorted_filter/iota_ltn_sorted/ltn_trans.
  move=> j k /ssrnat.ltP jk; apply/Z.ltb_lt; nia.
- rewrite all_map all_filter; apply/allP => j _ /=; apply/implyP.
  move/Z.ltb_lt => H1; apply/andP; split; [apply/Z.leb_le; lia | exact/Z.ltb_lt].
Qed.

(** X6: for a nonzero grid size and a nonnegative [min_regime_num], the
    threshold grid of lines 179-185 is computed without error, is strictly
    increasing, and holds only values of [endog[:-delay]]. *)
Theorem threshold_grid_strict_values (m : SETAR R) (d : nat) (gs : Z) :
  gs <> 0%Z -> (0 <= min_regime_num m)%Z ->
  exists tg, threshold_grid m d gs = Ok tg /\ sorted <%R tg /\
    {subset tg <= py_slice (endog m) None (Some (- Z.of_nat d)%Z)}.
Proof.
move=> Hgs Hmrn; rewrite /threshold_grid.
set xs := py_slice _ _ _; set tv := np_unique_sort xs.
case: Z.eqb_spec => // _.
set step := Z.max _ 1; set idx := arange _ _ _.
have [Hsrt Hall] : sorted (fun a b => Z.ltb a b) idx /\
   all (fun i => Z.leb (min_regime_num m) i &&
                 Z.ltb i (Z.of_nat (size tv) - min_regime_num m)) idx.
  by apply: arange_spec; lia.
have Hin : all (fun i => Z.leb 0 i && Z.ltb i (Z.of_nat (size tv))) idx.
  apply: sub_all Hall => i /andP [/Z.leb_le H1 /Z.ltb_lt H2].
  by apply/andP; split; [apply/Z.leb_le | apply/Z.ltb_lt]; lia.
rewrite mapM_py_index //; eexists; split; first reflexivity.
have Hlt (x : Z) (n : nat) : (0 <= x)%Z -> (x < Z.of_nat n)%Z -> (Z.to_nat x < n)%N.
  by move=> *; apply/ssrnat.ltP; lia.
have tv_lt : sorted <%R tv.
  rewrite lt_sorted_uniq_le /tv /np_unique_sort undup_uniq /=.
  by apply: undup_sorted; [exact: le_trans | exact: sort_le_sorted].
split.
- apply: (homo_sorted_in (P := fun i => Z.leb 0 i && Z.ltb i (Z.of_nat (size tv)))) Hsrt => //.
  move=> a b /andP [/Z.leb_le a0 /Z.ltb_lt an] /andP [/Z.leb_le b0 /Z.ltb_lt bn].
  move/Z.ltb_lt => ab.
  apply: (sorted_ltn_nth lt_trans) => //; rewrite ?inE; try exact: Hlt.
  by apply/ssrnat.ltP; lia.
- apply/allP; rewrite all_map; apply: sub_all Hin => i /andP [/Z.leb_le i0 /Z.ltb_lt it] /=.
  have : nth 0 tv (Z.to_nat i) \in tv by apply: mem_nth; exact: Hlt.
  by rewrite mem_undup mem_sort.
Qed.


(** X7: the cached [XX] and [resids] of lines 210-216: when [X'X] is
    invertible, [XX] is its inverse and the residuals are orthogonal to
    every column of [X]; otherwise [np.linalg.inv] raises LinAlgError. *)
Theorem baseline_resids_orthogonal (m : SETAR R) :
  match baseline m with
  | Ok (XX, r) => XX = invmx ((design m)^T *m design m) /\ (design m)^T *m r = 0
  | Err e => e = LinAlgError /\ (design m)^T *m design m \notin unitmx
  end.
Proof.
rewrite /baseline; case: ifP => [uG | /negbT nG] //; split => //.
by rewrite mulmxBr !mulmxA mulmxV // mul1mx subrr.
Qed.

(** The residual maker [1 - X (X'X)^-1 X'] is symmetric and idempotent. *)
Lemma resid_maker (n k : nat) (X : 'M[R]_(n, k)) :
  let G := X^T *m X in
  G \in unitmx ->
  let M := 1%:M - X *m invmx G *m X^T in
  M^T = M /\ M *m M = M.
Proof.
move=> G uG M; set P := X *m invmx G *m X^T.
have GT : G^T = G by rewrite /G trmx_mul trmxK.
have PT : P^T = P by rewrite /P !trmx_mul trmxK trmx_inv GT mulmxA.
have PP : P *m P = P.
  rewrite /P -!mulmxA [X^T *m (X *m _)]mulmxA.
  by rewrite [X^T *m X *m _]mulmxA -/G mulmxV // mul1mx.
split; first by rewrite /M (raddfB (@trmx _ n n)) /= tr_scalar_mx -/P PT.
by rewrite /M -/P mulmxBl mul1mx !mulmxBr mulmx1 PP subrr subr0.
Qed.

(** X8: every objective value computed from the cached [XX] and
    [resids] is at most the single-regime residual sum of squares
    [resids'resids]. *)
Theorem objective_le_baseline_ssr (m : SETAR R) d ts XX r v :
  baseline m = Ok (XX, r) -> grid_search_objective m d ts XX r = Ok v ->
  v <= (r^T *m r) 0 0.
Proof.
rewrite /baseline; case: ifP => // uG [<- <-].
rewrite /grid_search_objective; case: (build_datasets _ _ _ _) => //= [[y' X']].
set X := design m; set X1 := mx_of X' _ _; set y := \col_i _.
case: ifP => // uA [<-].
have [MT MM] := resid_maker uG.
set M := 1%:M - _ in MT MM.
have Er : y - X *m (invmx (X^T *m X) *m (X^T *m y)) = M *m y.
  by rewrite /M mulmxBl mul1mx !mulmxA.
rewrite Er (inner_gram X1 uG) in uA *.
set Z := M *m X1; set A := Z^T *m Z.
have Eu : X1^T *m (M *m y) = Z^T *m (M *m y).
  by rewrite /Z trmx_mul MT -mulmxA [M *m (M *m y)]mulmxA MM.
rewrite quad_form_assoc Eu.
set r0 := M *m y; set u := Z^T *m r0; set w := invmx A *m u.
have Aw : A *m w = u by rewrite /w mulKVmx.
have key : r0^T *m r0 - u^T *m w = (r0 - Z *m w)^T *m (r0 - Z *m w).
  rewrite (raddfB (@trmx _ _ _)) /= trmx_mul mulmxBl !mulmxBr.
  have -> : w^T *m Z^T *m (Z *m w) = w^T *m u by rewrite -Aw /A !mulmxA.
  have -> : w^T *m Z^T *m r0 = w^T *m u by rewrite -mulmxA.
  have -> : r0^T *m (Z *m w) = u^T *m w by rewrite /u trmx_mul trmxK mulmxA.
  by rewrite subrr subr0.
rewrite -mulmxA -/w; move: (quad_self_ge0 (r0 - Z *m w)); rewrite -key.
by rewrite [X in 0 <= X]mxE [X in 0 <= _ + X]mxE subr_ge0.
Qed.


Lemma foldM_inv (A B : Type) (P : A -> Prop) (f : A -> B -> result A) a l r :
  P a -> (forall a b a', P a -> List.In b l -> f a b = Ok a' -> P a') ->
  foldM f a l = Ok r -> P r.
Proof.
elim: l a => [|b l IH] a Pa Hf /=; first by move=> [<-].
case E : (f a b) => [a'|] //= H.
apply: (IH a') => //; first exact: (Hf a b a' Pa (or_introl erefl) E).
by move=> a0 b0 a0' P0 Hin; apply: Hf => //; right.
Qed.

(** X9: when the grid search returns a pair [(delay, threshold)] (and
    [min_regime_num > 0]), the delay comes from the delay grid and lies in
    [1..nobs_initial], the threshold is in that delay's threshold grid,
    and the returned maximum is the positive objective of that pair. *)
Theorem grid_winner_valid (m : SETAR R) ts gs XX r dg d t v :
  (0 < min_regime_num m)%Z ->
  select_hyperparameters_grid m ts gs XX r dg = Ok (Some (d, t), v) ->
  [/\ List.In (Some d) (if dg is Some g then g else default_delay_grid m),
      (1 <= d <= nobs_initial m)%N,
      exists tg, threshold_grid m d gs = Ok tg /\ List.In t tg,
      candidate_objective m ts XX r d t = Ok v & 0 < v].
Proof.
move=> Hmrn; rewrite /select_hyperparameters_grid.
set dl := (if dg is Some g then g else default_delay_grid m).
pose Inv (acc : option (nat * R) * R) :=
  match acc.1 with
  | None => acc.2 = 0
  | Some (d, t) =>
      [/\ List.In (Some d) dl, (1 <= d <= nobs_initial m)%N,
          exists tg, threshold_grid m d gs = Ok tg /\ List.In t tg,
          candidate_objective m ts XX r d t = Ok acc.2 & 0 < acc.2]
  end.
have Inv_ge0 acc : Inv acc -> 0 <= acc.2.
  by rewrite /Inv; case: acc.1 => [[d0 t0] [_ _ _ _ /ltW]|->].
move=> H; have : Inv (Some (d, t), v); last by [].
apply: (foldM_inv (P := Inv)) H => //.
move=> acc [d0|] acc' Hacc Hin //=.
case Etg : (threshold_grid m d0 gs) => [tg|] //=.
apply: foldM_inv => // a t0 a' Ha Ht; rewrite /grid_step.
case Ec : (candidate_objective m ts XX r d0 t0) => [obj|[] //].
- case: ifP => [lt [<-] | _ [<-] //]; rewrite /Inv /=.
  have pos : 0 < obj by exact: le_lt_trans (Inv_ge0 _ Ha) lt.
  split => //; last by exists tg.
  case: d0 Etg Ec Hin => [|d0] Etg Ec Hin.
    move: Ec; rewrite /candidate_objective; case: (np_sort_opt _) => //= c.
    by rewrite /grid_search_objective build_datasets_no_lagged_rows.
  case: (leqP d0.+1 (nobs_initial m)) => // Hlt.
  move: Ec; rewrite /candidate_objective; case: (np_sort_opt _) => //= c.
  by rewrite /grid_search_objective build_datasets_no_lagged_rows // Hlt orbT.
- by case=> <-.
Qed.


Lemma sweep_foldM (reest : nat -> result (option R)) s n p p' :
  foldM (fun p j => v <- reest j ;;
                    if (j < size p)%N then Ok (set_nth None p j v)
                    else Err IndexError) p (iota s n) = Ok p' ->
  [/\ (0 < n -> s + n <= size p)%N, size p' = size p,
      forall j, (s <= j < s + n)%N -> reest j = Ok (nth None p' j)
    & forall j, ~~ (s <= j < s + n)%N -> nth None p' j = nth None p j].
Proof.
elim: n s p => [|n IH] s p /=.
  move=> [<-]; split => // j; rewrite addn0 => /andP [H1 H2].
  by have := leq_ltn_trans H1 H2; rewrite ltnn.
case Ev : (reest s) => [v|] //=; case: ifP => // Hs /IH [H1 H2 H3 H4].
have Hsz : size (set_nth None p s v) = size p.
  by rewrite size_set_nth; apply/maxn_idPr.
split.
- case: n {IH H3 H4} H1 => [|n] H1 _; first by rewrite addn1.
  by rewrite -Hsz -addSnnS; apply: H1.
- by rewrite H2.
- move=> j /andP [Hj1 Hj2]; case: (ltngtP s j) Hj1 => // [lt | <-] _.
    by apply: H3; rewrite lt addSnnS Hj2.
  rewrite H4 ?nth_set_nth /= ?eqxx ?Ev //.
  by rewrite ltnn.
- move=> j Hj; have Hj' : ~~ (s.+1 <= j < s.+1 + n)%N.
    apply/negP => /andP [H5 H6]; move/negP: Hj; apply.
    by rewrite (ltnW H5) -addSnnS H6.
  rewrite H4 // nth_set_nth /=; case: eqP => // E.
  by move: Hj; rewrite E leqnn addnS ltnS leq_addr.
Qed.

(** X10: one refinement sweep (lines 248-254) re-estimates entries
    [0..i-1] each from the vector the sweep started with (not from entries
    already updated), leaves the rest unchanged and keeps the length. *)
Theorem refine_sweep_jacobi (m : SETAR R) gs XX r dly i ts p p' :
  refine_sweep m gs XX r dly i ts p = Ok p' ->
  [/\ (i <= size p)%N, size p' = size p,
      forall j, (j < i)%N -> regrid m gs XX r dly ts j = Ok (nth None p' j)
    & forall j, (i <= j)%N -> nth None p' j = nth None p j].
Proof.
rewrite /refine_sweep /sweep => /sweep_foldM [H1 H2 H3 H4]; split => //.
- by case: i H1 {H3 H4} => // i /(_ erefl).
- by move=> j Hj; apply: H4; rewrite add0n ltnNge Hj andbF.
Qed.


Lemma sweep_size (reest : nat -> result (option R)) i p p' :
  sweep reest i p = Ok p' -> size p' = size p.
Proof. by rewrite /sweep => /sweep_foldM [_ ->]. Qed.

Lemma refine_loop_size fuel (sweep1 : seq (option R) -> seq (option R) -> result (seq (option R)))
    a b it ts' reason n :
  (forall x y z, sweep1 x y = Ok z -> size z = size y) -> size a = size b ->
  refine_loop fuel sweep1 a b it = Some (Ok (ts', reason, n)) -> size ts' = size a.
Proof.
move=> Hs; elim: fuel a b it => [|f IH] a b it //= Hab.
case E : (sweep1 a b) => [p|] //.
have Hp := Hs _ _ _ E.
case: ifP => [_ [<-] // | _]; case: ifP => [_ [<-] // | _].
by move/IH => -> //; rewrite Hp Hab.
Qed.

Lemma refine_threshold_size (m : SETAR R) gs XX r dly i ts ts' :
  refine_threshold m gs XX r dly i ts = Some (Ok ts') -> size ts' = (size ts).+1.
Proof.
rewrite /refine_threshold; case: (select_hyperparameters_grid _ _ _ _ _ _) => // res.
case E : (refine_loop _ _ _ _ _) => [[[[ts2 ?] ?]|]|] // [<-].
rewrite (refine_loop_size _ _ E) ?size_rcons //.
by move=> x y z; rewrite /refine_sweep => /sweep_size.
Qed.

Lemma refine_thresholds_size (m : SETAR R) gs XX r dly idxs ts ts' :
  refine_thresholds m gs XX r dly idxs ts = Some (Ok ts') -> size ts' = (size ts + size idxs)%N.
Proof.
elim: idxs ts => [|i idxs IH] ts /=; first by move=> [<-]; rewrite addn0.
case E : (refine_threshold _ _ _ _ _ _ _) => [[ts1|]|] // /IH ->.
by rewrite (refine_threshold_size E) addSnnS.
Qed.

Lemma np_sort_list_spec (l l' : seq (option R)) :
  np_sort_list l = Ok l' ->
  size l' = size l /\ ((1 < size l)%N -> exists vs, l' = map Some vs /\ sorted <=%R vs).
Proof.
rewrite /np_sort_list; case: leqP => [_ [<-] | lt]; first by split => // /ltnW; rewrite leqNgt => /negP.
rewrite /np_sort_opt; case: ifP => // Hall [<-].
split; last by move=> _; exists (sort <=%R (pmap id l)); split => //; exact: sort_le_sorted.
rewrite size_map size_sort size_pmap.
by apply/eqP; rewrite -all_count; apply: sub_all Hall => o /=; case: o.
Qed.


(** X13: when no seed candidate beats 0 ([params = (None, None)]), the
    search returns [(None, [None])] for [order <= 2], and for a larger
    order fails with TypeError on [self.endog[:-None]]. *)
Theorem select_no_seed_winner (m : SETAR R) XX r v :
  select_hyperparameters_grid m [::] (threshold_grid_size m) XX r None = Ok (None, v) ->
  select_from_baseline m XX r =
    Some (if (order m <= 2)%N then Ok (None, [:: None]) else Err TypeError).
Proof.
rewrite /select_from_baseline => -> /=.
case: (order m) => [|[|[|o]]] //=.
Qed.

End Properties.

(** * Examples over [rat] *)

Lemma ex_init :
  init ex_endog 3 1 (Some 1%N) (Some [:: 1; 2]) (1 # 10) None 100
  = Ok ex_model.
Proof. reflexivity. Qed.

Lemma ex_init2 :
  init ex_endog 3 2 (Some 1%N) (Some [:: 5; 7]) (1 # 10) None 100
  = Ok ex_model2.
Proof. reflexivity. Qed.

(** The threshold grid for delay 1: the sorted unique lag values
    [0; 1; 2; 3; 4; 5] at indices [arange(1, 5, 1)]. *)
Lemma ex_threshold_grid : threshold_grid ex_model 1 100 = Ok [:: 1; 2; 3; 4].
Proof. by vm_compute. Qed.

(** Candidate 1 with the fixed threshold 1: the middle regime is empty. *)
Lemma ex_candidate_invalid XX r :
  candidate_objective ex_model [:: Some 1] XX r 1 1 = Err (InvalidRegimeError 1).
Proof.
rewrite /candidate_objective.
have -> : np_sort_opt [:: Some (1 : rat); Some 1] = Ok [:: 1; 1] by vm_compute.
by apply: objective_build_err; vm_compute.
Qed.

(** Candidate 2 with the fixed threshold 1: the middle regime holds the
    two rows with lag value 2, so [X1 (0, 0, 2, -1)' = 0]. *)
Lemma ex_candidate_singular XX r :
  candidate_objective ex_model [:: Some 1] XX r 1 2 = Err LinAlgError.
Proof.
rewrite /candidate_objective.
have -> : np_sort_opt [:: Some (2 : rat); Some 1] = Ok [:: 1; 2] by vm_compute.
by apply: (@objective_singular _ [:: 0; 0; 2; -1]); vm_compute.
Qed.

Lemma ex_grid_fails XX r :
  select_hyperparameters_grid ex_model [:: Some 1] 100 XX r (Some [:: Some 1%N])
  = Err LinAlgError.
Proof.
rewrite grid_single_delay ex_threshold_grid.
cbv beta iota delta [bind foldM].
rewrite /grid_step ex_candidate_invalid ex_candidate_singular.
by cbv beta iota delta [bind].
Qed.





Lemma searchsorted_regime_interval_witness :
  sorted <=%R [:: (1 : rat); 2] /\ (1 <= size ([:: 1; 2] : seq rat)%R)%N /\
  (searchsorted [:: (1 : rat); 2] 2 == 1%N) =
  ((1 == 0)%N || (nth 0 [:: (1 : rat); 2] 0 < 2)) &&
  ((1 == size ([:: 1; 2] : seq rat)%R)%N || (2 <= nth 0 [:: (1 : rat); 2] 1)).
Proof.
have Hs : sorted <=%R [:: (1 : rat); 2] by vm_compute.
split; first exact: Hs.
split; first by [].
by apply: searchsorted_regime_interval.
Defined.

Lemma build_datasets_regimes_partition_witness :
  exists y X',
  [/\ init ex_endog 3 1 (Some 1%N) (Some [:: 1; 2]) (1 # 10) None 100
        = Ok ex_model,
      (size ([:: 1; 2] : seq rat)%R + 1)%N = 3%N,
      build_datasets ex_model 1 [:: 1; 2] (Some 3) = Ok (y, X') &
      size X' = nrows ex_model /\
      forall t, (t < size X')%N ->
        let ind := nth 0%N (indicators ex_model 1 [:: 1; 2]) t in
        [/\ (ind < 3)%N, size (nth [::] X' t) = (3 * kcols ex_model)%N &
         forall i, (i < 3)%N ->
           take (kcols ex_model) (drop (i * kcols ex_model) (nth [::] X' t)) =
           (if i == ind then nth [::] (design_rows ex_model) t
            else nseq (kcols ex_model) 0)]].
Proof.
have H : init ex_endog 3 1 (Some 1%N) (Some [:: 1; 2]) (1 # 10) None 100
           = Ok ex_model by reflexivity.
case E : (build_datasets ex_model 1 [:: 1; 2] (Some 3)) => [[y X']|e].
  exists y, X'; split => //.
  by eapply build_datasets_regimes_partition; [exact: H | reflexivity | exact: E].
have : is_err_with (fun _ => true) (build_datasets ex_model 1 [:: 1; 2] (Some 3))
       = false by vm_compute.
by rewrite E.
Defined.



(** C7 counterexample: the same run takes 101 sweeps before it signals
    non-convergence, one more than [maxiter]. *)
Lemma refine_loop_runs_maxiter_plus_one :
  refine_loop 1000 ex_flip_sweep [:: Some 0; Some 0] [:: Some 0; Some 0] 0
    = Some (Ok ([:: Some 0; Some 0], MaxIterExceeded, 101%N)) /\
  (maxiter < 101)%N.
Proof. by split; vm_compute. Qed.

Lemma refine_loop_terminates_witness :
  (maxiter.+1 <= 1000)%N /\
  refine_loop 1000 ex_flip_sweep [:: Some 0; Some 0] [:: Some 0; Some 0] 0
    = refine_loop maxiter.+1 ex_flip_sweep [:: Some 0; Some 0]
        [:: Some 0; Some 0] 0 /\
  refine_loop 1000 ex_flip_sweep [:: Some 0; Some 0] [:: Some 0; Some 0] 0
    <> None.
Proof.
have H : (maxiter.+1 <= 1000)%N by vm_compute.
by split; [exact: H | apply: refine_loop_terminates].
Defined.

Lemma ex3_init :
  init ex3_endog 2 1 (Some 1%N) (Some [:: 1]) (1 # 5) None 1 = Ok ex3_model.
Proof. reflexivity. Qed.

(** The cached baseline of [ex3_model], computed on lists. *)
Lemma ex3_baseline :
  baseline ex3_model
  = Ok (mx_of ex3_XX (kcols ex3_model) (kcols ex3_model),
        mx_of (lcolumn ex3_resids) (nrows ex3_model) 1).
Proof.
rewrite /baseline /design mx_of_column mx_of_tr mx_of_mul.
match goal with |- context [invmx (mx_of ?a ?n ?n)] =>
  have [U ->] := @mx_of_inv _ a ex3_XX n (ltac:(vm_compute; reflexivity)) end.
by rewrite U !mx_of_mul mx_of_sub.
Qed.

(** The objective of delay 1 and threshold 1 for [ex3_model]. *)
Lemma ex3_objective :
  grid_search_objective ex3_model 1 [:: 1]
    (mx_of ex3_XX (kcols ex3_model) (kcols ex3_model))
    (mx_of (lcolumn ex3_resids) (nrows ex3_model) 1) = Ok (755 / 518).
Proof.
rewrite /grid_search_objective.
have -> : build_datasets ex3_model 1 [:: 1] (Some (size [:: 1 : rat]).+1)
  = Ok ([:: 1; 2; 3; 5; 4], [:: [:: 1; 0; 0; 0]; [:: 1; 1; 0; 0];
         [:: 0; 0; 1; 2]; [:: 0; 0; 1; 3]; [:: 0; 0; 1; 5]]) by vm_compute.
rewrite /= /design !mx_of_tr !mx_of_mul !mx_of_tr !mx_of_mul mx_of_sub.
match goal with |- context [invmx (mx_of ?a ?n ?n)] =>
  have [U ->] := @mx_of_inv _ a ex3_Mn n (ltac:(vm_compute; reflexivity)) end.
rewrite U !mx_of_mul mxE; congr Ok; vm_compute; reflexivity.
Qed.

(** The grid search over [delay_grid=[1]] for [ex3_model]: the grid is
    [[1]] and its objective is positive. *)
Lemma ex3_grid :
  select_hyperparameters_grid ex3_model [::] 1
    (mx_of ex3_XX (kcols ex3_model) (kcols ex3_model))
    (mx_of (lcolumn ex3_resids) (nrows ex3_model) 1) (Some [:: Some 1%N])
  = Ok (Some (1%N, 1), 755 / 518).
Proof.
rewrite grid_single_delay.
have -> : threshold_grid ex3_model 1 1 = Ok [:: 1] by vm_compute.
cbv beta iota delta [bind foldM]; rewrite /grid_step /candidate_objective.
have -> : np_sort_opt [:: Some (1 : rat)] = Ok [:: 1] by vm_compute.
cbv beta iota delta [bind]; rewrite ex3_objective.
have -> : (0 : rat) < 755 / 518 by vm_compute.
reflexivity.
Qed.

Lemma init_model_invariants_witness :
  init ex_endog 3 1 (Some 1%N) (Some [:: 1; 2]) (1 # 10) None 100
    = Ok ex_model /\
  exists d ts ts',
    [/\ Some 1%N = Some d, Some [:: 1; 2] = Some ts', delay ex_model = Some d,
        thresholds ex_model = Some ts & (1 <= d <= ar_order ex_model)%N] /\
    [/\ sorted <=%R ts, perm_eq ts ts', (size ts).+1 = order ex_model,
        nobs ex_model = (Z.of_nat (size ex_endog) - Z.of_nat 1)%Z
      & max_delay ex_model = 1%N] /\ ~~ fit_runs_search ex_model.
Proof.
have H : init ex_endog 3 1 (Some 1%N) (Some [:: 1; 2]) (1 # 10) None 100
           = Ok ex_model by reflexivity.
by split; [exact: H | exact: (init_model_invariants H)].
Defined.

Lemma init_valid_delay_outcome_witness :
  (1 <= 1 <= 1)%N /\
  match init ex_endog 2 1 (Some 1%N) (Some [:: 1; 2]) (1 # 10) None 100 with
  | Ok m => (size ([:: 1; 2] : seq rat)).+1 = 2%N /\ max_delay m = 1%N
  | Err e => (size ([:: 1; 2] : seq rat)).+1 <> 2%N /\ e = ThresholdCountValueError
  end.
Proof.
have H : (1 <= 1 <= 1)%N by [].
by split; [exact: H | exact: (@init_valid_delay_outcome rat ex_endog 2 1 1 [:: 1; 2] (1 # 10) None 100 H)].
Defined.

Lemma build_datasets_delay_out_of_range_witness :
  [/\ (2 == 0)%N || (nobs_initial ex_model < 2)%N,
      (0 < min_regime_num ex_model)%Z, (0 < 3)%N &
      build_datasets ex_model 2 [:: 1; 2] (Some 3%N) = Err (InvalidRegimeError 0)].
Proof.
have H1 : (2 == 0)%N || (nobs_initial ex_model < 2)%N by [].
have H2 : (0 < min_regime_num ex_model)%Z by reflexivity.
have H3 : (0 < 3)%N by [].
by split; [exact: H1 | exact: H2 | exact: H3 | exact: (build_datasets_delay_out_of_range [:: 1; 2] H1 H2 H3)].
Defined.

Lemma build_datasets_extra_regime_invalid_witness :
  [/\ init ex_endog 3 1 (Some 1%N) (Some [:: 1; 2]) (1 # 10) None 100
        = Ok ex_model, (1 <= 1 <= 1)%N, (0 < min_regime_num ex_model)%Z,
      ((size ([:: 1%R; 2%R] : seq rat)).+1 < 4)%N &
      is_err_with is_invalid_regime (build_datasets ex_model 1 [:: 1; 2] (Some 4%N))].
Proof.
have H : init ex_endog 3 1 (Some 1%N) (Some [:: 1; 2]) (1 # 10) None 100
           = Ok ex_model by reflexivity.
have H1 : (1 <= 1 <= 1)%N by [].
have H2 : (0 < min_regime_num ex_model)%Z by reflexivity.
have H3 : ((size ([:: 1%R; 2%R] : seq rat)).+1 < 4)%N by [].
by split; [exact: H | exact: H1 | exact: H2 | exact: H3 | exact: (build_datasets_extra_regime_invalid H H1 H2 H3)].
Defined.

Lemma indicators_lagged_value_witness :
  [/\ init ex_endog 3 1 (Some 1%N) (Some [:: 1; 2]) (1 # 10) None 100
        = Ok ex_model, (1 <= 1 <= 1)%N, (2 < nrows ex_model)%N &
      nth 0%N (indicators ex_model 1 [:: 1; 2]) 2
      = searchsorted [:: 1; 2] (nth 0 ex_endog (1 + 2 - 1))].
Proof.
have H : init ex_endog 3 1 (Some 1%N) (Some [:: 1; 2]) (1 # 10) None 100
           = Ok ex_model by reflexivity.
have H1 : (1 <= 1 <= 1)%N by [].
have H2 : (2 < nrows ex_model)%N by [].
by split; [exact: H | exact: H1 | exact: H2 | exact: (indicators_lagged_value [:: 1; 2] H H1 H2)].
Defined.

Lemma threshold_grid_strict_values_witness :
  100%Z <> 0%Z /\ (0 <= min_regime_num ex_model)%Z /\
  exists tg, threshold_grid ex_model 1 100 = Ok tg /\ sorted <%R tg /\
    {subset tg <= py_slice (endog ex_model) None (Some (- Z.of_nat 1)%Z)}.
Proof.
have H1 : 100%Z <> 0%Z by discriminate.
have H2 : (0 <= min_regime_num ex_model)%Z by simpl; lia.
by split; [exact: H1 | split; [exact: H2 | exact: (threshold_grid_strict_values 1 H1 H2)]].
Defined.

Lemma objective_le_baseline_ssr_witness :
  [/\ baseline ex3_model
        = Ok (mx_of ex3_XX (kcols ex3_model) (kcols ex3_model),
              mx_of (lcolumn ex3_resids) (nrows ex3_model) 1),
      grid_search_objective ex3_model 1 [:: 1]
        (mx_of ex3_XX (kcols ex3_model) (kcols ex3_model))
        (mx_of (lcolumn ex3_resids) (nrows ex3_model) 1) = Ok (755 / 518) &
      755 / 518 <= ((mx_of (lcolumn ex3_resids) (nrows ex3_model) 1)^T
                     *m mx_of (lcolumn ex3_resids) (nrows ex3_model) 1) 0 0].
Proof.
have H1 := ex3_baseline; have H2 := ex3_objective.
by split; [exact: H1 | exact: H2 | exact: (objective_le_baseline_ssr H1 H2)].
Defined.

Lemma grid_winner_valid_witness :
  (0 < min_regime_num ex3_model)%Z /\
  select_hyperparameters_grid ex3_model [::] 1
    (mx_of ex3_XX (kcols ex3_model) (kcols ex3_model))
    (mx_of (lcolumn ex3_resids) (nrows ex3_model) 1) (Some [:: Some 1%N])
    = Ok (Some (1%N, 1), 755 / 518) /\
  [/\ List.In (Some 1%N) [:: Some 1%N], (1 <= 1 <= nobs_initial ex3_model)%N,
      exists tg, threshold_grid ex3_model 1 1 = Ok tg /\ List.In 1 tg,
      candidate_objective ex3_model [::]
        (mx_of ex3_XX (kcols ex3_model) (kcols ex3_model))
        (mx_of (lcolumn ex3_resids) (nrows ex3_model) 1) 1 1 = Ok (755 / 518)
    & (0 : rat) < 755 / 518].
Proof.
have H1 : (0 < min_regime_num ex3_model)%Z by reflexivity.
have H2 := ex3_grid.
by split; [exact: H1 | split; [exact: H2 | exact: (grid_winner_valid H1 H2)]].
Defined.

Lemma refine_sweep_jacobi_witness :
  refine_sweep ex_model2 100 0 0 (Some 2%N) 2 [:: Some 7; Some 7]
    [:: Some 7; Some 7] = Ok [:: None; None] /\
  [/\ (2 <= size ([:: Some 7%R; Some 7%R] : seq (option rat)))%N,
      size ([:: None; None] : seq (option rat)) = size [:: Some (7 : rat); Some 7],
      forall j, (j < 2)%N -> regrid ex_model2 100 0 0 (Some 2%N)
                  [:: Some 7; Some 7] j = Ok (nth None [:: None; None] j)
    & forall j, (2 <= j)%N ->
        nth None [:: None; None] j = nth None [:: Some (7 : rat); Some 7] j].
Proof.
have H : refine_sweep ex_model2 100 0 0 (Some 2%N) 2 [:: Some 7; Some 7]
           [:: Some 7; Some 7] = Ok [:: None; None] by vm_compute.
by split; [exact: H | exact: (refine_sweep_jacobi H)].
Defined.



Lemma select_no_seed_winner_witness :
  select_hyperparameters_grid ex_model [::] (threshold_grid_size ex_model) 0 0
    None = Ok (None, 0) /\
  select_from_baseline ex_model 0 0
    = Some (if (order ex_model <= 2)%N then Ok (None, [:: None])
            else Err TypeError).
Proof.
have H : select_hyperparameters_grid ex_model [::]
           (threshold_grid_size ex_model) 0 0 None = Ok (None, 0)
  by vm_compute.
by split; [exact: H | exact: (select_no_seed_winner H)].
Defined.
